(** * rotator: the block-chain shape generator and the tiled renderer of demo.cc

    A shallow embedding of [src/demo.cc].

    - C++ [float] values are modelled by the rational numbers they denote
      ([Q]).  The addition on the elapsed time is the single-precision one:
      the exact sum rounded to the nearest binary32 value, ties to even
      ([float_add]).  The vector arithmetic of the generator ([vadd],
      [vscale]) is written with the exact operations: every coordinate it
      computes is an integer of magnitude at most twice the number of cubes
      plus one ([generated_coordinates_bounded]), integers up to 2^24 are
      binary32 values ([exact32_int]), and a single-precision operation whose
      exact result is a binary32 value returns it, so the two agree on every
      shape of fewer than 2^23 cubes.  The theorems that state positions
      carry that bound as a hypothesis.
    - [int] and [size_t] are [Z] with the conversions and the wrap-around of
      the unsigned arithmetic written out.
    - The process-wide state the code touches (the static random engine,
      [stderr], the sequence of OpenGL calls) is one record [World], threaded
      by a small state-and-failure monad [M].  A fatal condition (a failed
      [assert], an integer division by zero, a null program pointer) stops the
      computation and keeps the effects already performed.
    - Matrices built by glm ([perspective], [lookAt], [translate], [rotate],
      the product) are kept as terms of the free algebra [mat4]: two equal
      terms denote equal matrices under every interpretation of the glm
      functions. *)

From Stdlib Require Import ZArith QArith Qround Qabs Qpower List String Ascii Bool Lia Lqa.
Import ListNotations.

Local Open Scope Z_scope.

(** ** Floats and glm vectors *)

Definition float := Q.
Bind Scope Q_scope with float.

(** [x < y] on floats, as a test. *)
Definition flt (x y : float) : bool := negb (Qle_bool y x).

(** [numeric_limits<float>::max()]: (2^24 - 1) * 2^104. *)
Definition FLT_MAX : float := inject_Z ((2 ^ 24 - 1) * 2 ^ 104).

(** [numeric_limits<float>::min()]: the least positive normal value, 2^-126. *)
Definition FLT_MIN : float := Qmake 1 (2 ^ 126)%positive.

(** *** Rounding to single precision

    binary32 has 24 significant bits and least exponent -149: around a value
    [q] of binary exponent [E] (2^E <= |q| < 2^(E+1)) its values are the
    multiples of 2^(E - 23), and the multiples of 2^-149 below 2^-126. *)

(** floor (log2 (n / d)) *)
Definition ilog2 (n d : positive) : Z :=
  let k := Z.log2 (Zpos n) - Z.log2 (Zpos d) in
  if Qle_bool (2 ^ k) (Zpos n # d) then k else k - 1.

(** The exponent of the unit in the last place at [q]. *)
Definition ulp_exponent (q : Q) : Z :=
  match Qnum q with
  | Z0 => -149
  | Zpos n | Zneg n => Z.max (ilog2 n (Qden q) - 23) (-149)
  end.

(** The nearest integer, ties to the even one. *)
Definition rne (s : Q) : Z :=
  let f := Qfloor s in
  match Qcompare (s - inject_Z f) (1 # 2) with
  | Lt => f
  | Gt => f + 1
  | Eq => if Z.even f then f else f + 1
  end.

(** [q] is a multiple of its unit in the last place: it needs no rounding. *)
Definition exact32 (q : Q) : bool :=
  Qeq_bool (inject_Z (rne (q / 2 ^ ulp_exponent q))) (q / 2 ^ ulp_exponent q).

(** Round to nearest, ties to even; a value that needs no rounding is
    returned as it is.  Overflow is not modelled: a result above [FLT_MAX]
    stands for the infinity the machine produces. *)
Definition round32 (q : Q) : float :=
  if exact32 q then q
  else inject_Z (rne (q / 2 ^ ulp_exponent q)) * 2 ^ ulp_exponent q.

(** [x + y] on two floats. *)
Definition float_add (x y : float) : float := round32 (x + y).

Record vec2 := mkVec2 { tu : float; tv : float }.

Record vec3 := mkVec3 { vx : float; vy : float; vz : float }.

(** [glm::vec3(s)] *)
Definition vec3_splat (s : float) : vec3 := mkVec3 s s s.

(** [glm::vec3(a, b, c)] on integer arguments. *)
Definition ivec (a b c : Z) : vec3 := mkVec3 (inject_Z a) (inject_Z b) (inject_Z c).

(** [a + b], with the exact sums: the single-precision sum is the same
    whenever the exact sum is a binary32 value ([float_add_exact]), which the
    theorems on positions establish under their bound on the number of
    cubes ([vec_exact]). *)
Definition vadd (a b : vec3) : vec3 :=
  mkVec3 (vx a + vx b)%Q (vy a + vy b)%Q (vz a + vz b)%Q.

(** [s * v] *)
Definition vscale (s : float) (v : vec3) : vec3 :=
  mkVec3 (s * vx v)%Q (s * vy v)%Q (s * vz v)%Q.

Definition vneg (v : vec3) : vec3 := mkVec3 (- vx v)%Q (- vy v)%Q (- vz v)%Q.

(** [glm::min(x, y)] is [(y < x) ? y : x] and [glm::max(x, y)] is
    [(x < y) ? y : x]; on vectors they work component-wise. *)
Definition fmin (x y : float) : float := if flt y x then y else x.
Definition fmax (x y : float) : float := if flt x y then y else x.

Definition vmin (a b : vec3) : vec3 :=
  mkVec3 (fmin (vx a) (vx b)) (fmin (vy a) (vy b)) (fmin (vz a) (vz b)).
Definition vmax (a b : vec3) : vec3 :=
  mkVec3 (fmax (vx a) (vx b)) (fmax (vy a) (vy b)) (fmax (vz a) (vz b)).

(** Component-wise orders on vectors. *)
Definition vle (a b : vec3) : Prop :=
  (vx a <= vx b)%Q /\ (vy a <= vy b)%Q /\ (vz a <= vz b)%Q.
Definition vlt (a b : vec3) : Prop :=
  (vx a < vx b)%Q /\ (vy a < vy b)%Q /\ (vz a < vz b)%Q.

(** ** OpenGL names and the external collaborators *)

Inductive GLenum :=
| GL_VERTEX_SHADER | GL_FRAGMENT_SHADER
| GL_COLOR_BUFFER_BIT | GL_DEPTH_BUFFER_BIT
| GL_DEPTH_TEST | GL_CULL_FACE | GL_BACK
| GL_TRIANGLES | GL_FLOAT.

(** Scalars and vectors that glm computes with functions outside the
    rationals stay symbolic. *)
Inductive fexp :=
| FLit (q : float)                  (* a float value *)
| FRadians (deg : float)            (* glm::radians(deg) *)
| FDiv (num : Z) (den : Z).         (* static_cast<float>(num) / den *)

Inductive vexp :=
| VLit (v : vec3)
| VNormalize (v : vec3).            (* glm::normalize(v) *)

Inductive mat4 :=
| MIdentity                                             (* glm::mat4(1.0f) *)
| MTranslate (m : mat4) (v : vec3)                      (* glm::translate(m, v) *)
| MRotate (m : mat4) (angle : fexp) (axis : vexp)       (* glm::rotate(m, angle, axis) *)
| MPerspective (fovy aspect near far : fexp)            (* glm::perspective *)
| MLookAt (eye center up : vec3)                        (* glm::lookAt *)
| MMul (a b : mat4).                                    (* a * b *)

(** What a [ShaderProgram] answers to the calls the demo makes. *)
Record ShaderProgram := mkShaderProgram {
  addShader : GLenum -> string -> bool;
  link : bool;
  log : string
}.

Record Vertex := mkVertex { position : vec3; texCoord : vec2 }.

(** The settings a [Mesh] receives. *)
Record Mesh := mkMesh {
  vertexCount : nat;
  vertexSize : Z;
  vertexAttributes : list (Z * GLenum * Z);
  vertexData : list Vertex
}.

Record BoundingBox := mkBoundingBox { bbmin : vec3; bbmax : vec3 }.

Record Shape := mkShape { boundingBox : BoundingBox; mesh : Mesh }.

(** The OpenGL-facing calls, in the order they are issued. *)
Inductive GLCall :=
| glClearColor (r g b a : float)
| glClear (mask : list GLenum)
| glEnable (cap : GLenum)
| glCullFace (mode : GLenum)
| ProgramBind
| glViewport (x y w h : Z)
| ProgramSetUniform (name : string) (m : mat4)
| MeshRender (m : Mesh) (mode : GLenum).

(** ** The world and the monad *)

(** The static [std::default_random_engine] seen through
    [uniform_int_distribution<int>(0, 1)]: the stream of draws still to
    come, [true] for 1. *)
Definition Generator := nat -> bool.

(** [stderr] holds one entry per [fprintf] call, and [gl] the calls that the
    statements of demo.cc make in [render]; what the constructors and the
    member functions of [ShaderProgram] and [Mesh] do to the OpenGL context
    when a program or a mesh is built is not in this file and is not
    recorded. *)
Record World := mkWorld {
  generator : Generator;
  stderr : list string;
  gl : list GLCall
}.

Inductive Fatal := AssertionFailed | DivisionByZero | NullPointer.

Inductive Result (A : Type) :=
| Ok (a : A)
| Crash (e : Fatal).
Arguments Ok {A} a.
Arguments Crash {A} e.

Definition M (A : Type) : Type := World -> Result A * World.

Definition ret {A} (a : A) : M A := fun w => (Ok a, w).

Definition bind {A B} (m : M A) (k : A -> M B) : M B :=
  fun w => match m w with
           | (Ok a, w') => k a w'
           | (Crash e, w') => (Crash e, w')
           end.

Definition crash {A} (e : Fatal) : M A := fun w => (Crash e, w).

Notation "x <- m ;; k" := (bind m (fun x => k))
  (at level 61, m at next level, right associativity).
Notation "m ;;; k" := (bind m (fun _ => k))
  (at level 61, right associativity).

(** [zero_or_one(generator)] *)
Definition zero_or_one : M bool :=
  fun w => (Ok (generator w 0%nat),
            mkWorld (fun n => generator w (S n)) (stderr w) (gl w)).

(** [fprintf(stderr, ...)] with the formatted text. *)
Definition fprintf_stderr (s : string) : M unit :=
  fun w => (Ok tt, mkWorld (generator w) (stderr w ++ [s]) (gl w)).

Definition call (c : GLCall) : M unit :=
  fun w => (Ok tt, mkWorld (generator w) (stderr w) (gl w ++ [c])).

Definition newline : string := String (ascii_of_nat 10) EmptyString.

(** ** initializeProgram *)

Definition initializeProgram (program : ShaderProgram)
    (vertexShader fragmentShader : string) : M bool :=
  if negb (addShader program GL_VERTEX_SHADER vertexShader) then
    fprintf_stderr ("Failed to add vertex shader " ++ vertexShader ++ ": "
                    ++ log program ++ newline) ;;;
    ret false
  else if negb (addShader program GL_FRAGMENT_SHADER fragmentShader) then
    fprintf_stderr ("Failed to add fragment shader " ++ fragmentShader ++ ": "
                    ++ log program ++ newline) ;;;
    ret false
  else
    (if negb (link program) then
       fprintf_stderr ("Failed to link shader: " ++ log program ++ newline)
     else ret tt) ;;;
    ret true.

(** ** initializeShape *)

(** The walk of lines 43-79: the state the outer loop carries. *)
Record WalkState := mkWalk {
  center : vec3;
  direction : Z;          (* unsigned; 4 = X, 2 = Y, 1 = Z *)
  side : float;
  blocks : list vec3
}.

Definition walk_init : WalkState :=
  mkWalk (vec3_splat 0%Q) 2 1%Q [].

(** [glm::vec3(direction >> 2, (direction >> 1) & 1, direction & 1)] *)
Definition direction_vector (direction : Z) : vec3 :=
  ivec (Z.shiftr direction 2) (Z.land (Z.shiftr direction 1) 1) (Z.land direction 1).

(** [2.0f * side * direction_vector] *)
Definition step_vector (s : WalkState) : vec3 :=
  vscale (2 * side s)%Q (direction_vector (direction s)).

(** The inner loop: [n] times push the center, then move it by [d]. *)
Fixpoint place (n : nat) (d : vec3) (center : vec3) (blocks : list vec3)
  : vec3 * list vec3 :=
  match n with
  | O => (center, blocks)
  | S n' => place n' d (vadd center d) (blocks ++ [center])
  end.

(** The [switch] on the direction. *)
Definition turn (direction : Z) : M Z :=
  match direction with
  | 1 => b <- zero_or_one ;; ret (if b then 2 else 4)
  | 2 => b <- zero_or_one ;; ret (if b then 1 else 4)
  | 4 => b <- zero_or_one ;; ret (if b then 1 else 2)
  | _ => crash AssertionFailed
  end.

(** One iteration of the loop over the segments. *)
Definition segment (s : WalkState) (length : Z) : M WalkState :=
  let d := step_vector s in
  let '(center', blocks') := place (Z.to_nat length) d (center s) (blocks s) in
  direction' <- turn (direction s) ;;
  b <- zero_or_one ;;
  ret (mkWalk center' direction' (if b then (- side s)%Q else side s) blocks').

Fixpoint walk_from (s : WalkState) (segments : list Z) : M WalkState :=
  match segments with
  | [] => ret s
  | length :: rest => s' <- segment s length ;; walk_from s' rest
  end.

Definition walk (segments : list Z) : M (list vec3) :=
  s <- walk_from walk_init segments ;; ret (blocks s).

(** [addFace] of the cube at [center]: two triangles, six vertices. *)
Definition addFace (center p0 p1 p2 p3 : vec3) : list Vertex :=
  [ mkVertex (vadd p0 center) (mkVec2 0%Q 0%Q);
    mkVertex (vadd p1 center) (mkVec2 0%Q 1%Q);
    mkVertex (vadd p2 center) (mkVec2 1%Q 1%Q);
    mkVertex (vadd p2 center) (mkVec2 1%Q 1%Q);
    mkVertex (vadd p3 center) (mkVec2 1%Q 0%Q);
    mkVertex (vadd p0 center) (mkVec2 0%Q 0%Q) ].

(** The six faces pushed for one block. *)
Definition cube (center : vec3) : list Vertex :=
  (* top *)
  addFace center (ivec (-1) 1 (-1)) (ivec (-1) 1 1) (ivec 1 1 1) (ivec 1 1 (-1)) ++
  (* bottom *)
  addFace center (ivec 1 (-1) (-1)) (ivec 1 (-1) 1) (ivec (-1) (-1) 1) (ivec (-1) (-1) (-1)) ++
  (* right *)
  addFace center (ivec (-1) (-1) (-1)) (ivec (-1) (-1) 1) (ivec (-1) 1 1) (ivec (-1) 1 (-1)) ++
  (* left *)
  addFace center (ivec 1 1 (-1)) (ivec 1 1 1) (ivec 1 (-1) 1) (ivec 1 (-1) (-1)) ++
  (* back *)
  addFace center (ivec (-1) (-1) (-1)) (ivec (-1) 1 (-1)) (ivec 1 1 (-1)) (ivec 1 (-1) (-1)) ++
  (* front *)
  addFace center (ivec 1 (-1) 1) (ivec 1 1 1) (ivec (-1) 1 1) (ivec (-1) (-1) 1).

(** The loop over the blocks, pushing onto [vertices]. *)
Definition build_vertices (blocks : list vec3) : list Vertex :=
  fold_left (fun vertices center => vertices ++ cube center) blocks [].

(** The bounding-box loop of lines 127-135. *)
Definition bb_step (bb : BoundingBox) (vertex : Vertex) : BoundingBox :=
  let p := position vertex in
  mkBoundingBox (vmin (bbmin bb) p) (vmax (bbmax bb) p).

Definition bb_init : BoundingBox :=
  mkBoundingBox (vec3_splat FLT_MAX) (vec3_splat FLT_MIN).

Definition bounding_box (vertices : list Vertex) : BoundingBox :=
  fold_left bb_step vertices bb_init.

(** [sizeof(Vertex)], [offsetof(Vertex, position)], [offsetof(Vertex, texCoord)]
    for five packed 4-byte floats. *)
Definition sizeof_Vertex : Z := 20.

Definition make_mesh (vertices : list Vertex) : Mesh :=
  mkMesh (List.length vertices) sizeof_Vertex
         [(3, GL_FLOAT, 0); (2, GL_FLOAT, 12)] vertices.

(** Lines 81-141: the vertices, the mesh and the bounding box of the blocks. *)
Definition make_shape (blocks : list vec3) : Shape :=
  let vertices := build_vertices blocks in
  mkShape (bounding_box vertices) (make_mesh vertices).

Definition initializeShape (segments : list Z) : M Shape :=
  blocks <- walk segments ;;
  ret (make_shape blocks).

(** ** Demo *)

Record Demo := mkDemo {
  m_canvasWidth : Z;                        (* int *)
  m_canvasHeight : Z;                       (* int *)
  m_shapeProgram : option ShaderProgram;    (* unique_ptr, null until initialize *)
  m_shapes : list Shape;
  m_curTime : float
}.

(** Modelled from the spec: the declaration of [m_curTime] is in demo.h, which
    is not among the sources; the constructor in demo.cc sets the two canvas
    dimensions only, and the spec gives the elapsed time as initialized to 0. *)
Definition m_curTime_initial : float := 0%Q.

(** [Demo::Demo(canvasWidth, canvasHeight)] *)
Definition Demo_new (canvasWidth canvasHeight : Z) : Demo :=
  mkDemo canvasWidth canvasHeight None [] m_curTime_initial.

Definition set_curTime (d : Demo) (t : float) : Demo :=
  mkDemo (m_canvasWidth d) (m_canvasHeight d) (m_shapeProgram d) (m_shapes d) t.

Definition set_shapes (d : Demo) (shapes : list Shape) : Demo :=
  mkDemo (m_canvasWidth d) (m_canvasHeight d) (m_shapeProgram d) shapes (m_curTime d).

Definition set_shapeProgram (d : Demo) (p : ShaderProgram) : Demo :=
  mkDemo (m_canvasWidth d) (m_canvasHeight d) (Some p) (m_shapes d) (m_curTime d).

(** Conversion to [size_t] (64 bits, unsigned) and to [GLint]/[GLsizei]
    (32 bits, signed). *)
Definition size_t_of (z : Z) : Z := z mod 2 ^ 64.
Definition int_of (z : Z) : Z := (z + 2 ^ 31) mod 2 ^ 32 - 2 ^ 31.

Definition Columns : Z := 3.

(** The view matrix of line 187. *)
Definition view_matrix : mat4 :=
  MLookAt (ivec 0 0 (-18)) (ivec 0 0 0) (ivec 0 1 0).

(** The model matrix of lines 189-193. *)
Definition model_matrix (curTime : float) (shape : Shape) : mat4 :=
  let center := vscale (1 # 2) (vadd (bbmin (boundingBox shape)) (bbmax (boundingBox shape))) in
  let t := MTranslate MIdentity (vneg center) in
  let angle := (- (3 # 2) * curTime)%Q in
  let r := MRotate MIdentity (FLit angle) (VNormalize (ivec 1 1 1)) in
  MMul r t.

(** The body of the loop over the shapes, from index [i] on.  [viewportWidth]
    is an [int], [viewportHeight] and [i] are [size_t]. *)
Fixpoint render_shapes (d : Demo) (viewportWidth viewportHeight : Z) (i : Z)
    (shapes : list Shape) : M unit :=
  match shapes with
  | [] => ret tt
  | shape :: rest =>
      let viewportX := size_t_of ((i mod size_t_of Columns) * size_t_of viewportWidth) in
      let viewportY := size_t_of ((i / size_t_of Columns) * viewportHeight) in
      call (glViewport (int_of viewportX) (int_of viewportY)
                       viewportWidth (int_of viewportHeight)) ;;;
      let projection :=
        MPerspective (FRadians 45) (FDiv viewportWidth viewportHeight)
                     (FLit (1 # 10)) (FLit 100) in
      let view := view_matrix in
      let model := model_matrix (m_curTime d) shape in
      let mvp := MMul (MMul projection view) model in
      call (ProgramSetUniform "mvp" mvp) ;;;
      call (MeshRender (mesh shape) GL_TRIANGLES) ;;;
      render_shapes d viewportWidth viewportHeight (i + 1) rest
  end.

(** [Demo::render] *)
Definition render (d : Demo) : M unit :=
  call (glClearColor 1 1 1 1) ;;;
  call (glClear [GL_COLOR_BUFFER_BIT; GL_DEPTH_BUFFER_BIT]) ;;;
  call (glEnable GL_DEPTH_TEST) ;;;
  call (glEnable GL_CULL_FACE) ;;;
  call (glCullFace GL_BACK) ;;;
  match m_shapeProgram d with
  | None => crash NullPointer
  | Some _ => call ProgramBind
  end ;;;
  let viewportWidth := Z.quot (m_canvasWidth d) Columns in
  let size := Z.of_nat (List.length (m_shapes d)) in
  let rows := size_t_of (size_t_of (size + size_t_of Columns) - 1) / size_t_of Columns in
  if rows =? 0 then crash DivisionByZero
  else
    let viewportHeight := size_t_of (m_canvasHeight d) / rows in
    render_shapes d viewportWidth viewportHeight 0 (m_shapes d).

(** [Demo::renderAndStep] *)
Definition renderAndStep (d : Demo) (dt : float) : M Demo :=
  render d ;;;
  ret (set_curTime d (float_add (m_curTime d) dt)).

(** The loop of lines 208-209, [n] iterations left. *)
Fixpoint push_shapes (n : nat) (segments : list Z) (d : Demo) : M Demo :=
  match n with
  | O => ret d
  | S n' =>
      shape <- initializeShape segments ;;
      push_shapes n' segments (set_shapes d (m_shapes d ++ [shape]))
  end.

(** [Demo::initialize]; [fresh] is the program that [new ShaderProgram]
    creates. *)
Definition initialize (fresh : ShaderProgram) (d : Demo) : M (bool * Demo) :=
  let d := set_shapeProgram d fresh in
  ok <- initializeProgram fresh "shaders/shape.vert" "shaders/shape.frag" ;;
  if negb ok then ret (false, d)
  else
    let segments := [3; 3; 2; 3] in
    d <- push_shapes 6 segments d ;;
    ret (true, d).

(** The frame driver: one [renderAndStep] per tick. *)
Fixpoint frames (d : Demo) (dts : list float) : M Demo :=
  match dts with
  | [] => ret d
  | dt :: rest => d' <- renderAndStep d dt ;; frames d' rest
  end.

(** ** Vocabulary of the statements *)

Definition origin : vec3 := vec3_splat 0.

(** The one-hot patterns of the three axes. *)
Definition axis_ok (direction : Z) : Prop :=
  direction = 1 \/ direction = 2 \/ direction = 4.

Definition side_ok (side : float) : Prop :=
  side = 1%Q \/ side = (-1 # 1)%Q.

(** A vector of three even integers. *)
Definition even_vec (c : vec3) : Prop :=
  exists i j k : Z, c = ivec (2 * i) (2 * j) (2 * k).

(** The displacement between adjacent cubes: 2 or -2 on one axis, 0 on the
    other two. *)
Definition unit_step (d : vec3) : Prop :=
  exists sgn : Z, (sgn = 1 \/ sgn = -1) /\
    (d = ivec (2 * sgn) 0 0 \/ d = ivec 0 (2 * sgn) 0 \/ d = ivec 0 0 (2 * sgn)).

(** The displacement along the axis that [direction] encodes (4 = X, 2 = Y,
    1 = Z): 2 or -2 on that axis, 0 on the other two. *)
Definition along (direction : Z) (d : vec3) : Prop :=
  exists sgn : Z, (sgn = 1 \/ sgn = -1) /\
    ((direction = 4 /\ d = ivec (2 * sgn) 0 0) \/
     (direction = 2 /\ d = ivec 0 (2 * sgn) 0) \/
     (direction = 1 /\ d = ivec 0 0 (2 * sgn))).

(** A vector of three integers of magnitude at most [b]. *)
Definition within (b : Z) (c : vec3) : Prop :=
  exists i j k : Z, c = ivec i j k /\ Z.abs i <= b /\ Z.abs j <= b /\ Z.abs k <= b.

(** The centers the inner loop pushes, and the center it ends on. *)
Fixpoint run (n : nat) (d c : vec3) : list vec3 :=
  match n with
  | O => []
  | S n' => c :: run n' d (vadd c d)
  end.

Fixpoint moved (n : nat) (d c : vec3) : vec3 :=
  match n with
  | O => c
  | S n' => moved n' d (vadd c d)
  end.

(** Each element of [r] is its predecessor moved by [d]. *)
Definition straight (d : vec3) (r : list vec3) : Prop :=
  forall (i : nat) (c c' : vec3),
    nth_error r i = Some c -> nth_error r (S i) = Some c' -> c' = vadd c d.

(** The number of cubes a segment list asks for, and the sum of its entries. *)
Definition cubes (segments : list Z) : nat :=
  fold_right (fun L n => (Z.to_nat L + n)%nat) 0%nat segments.


(** What the walk keeps true between two segments. *)
Record walk_inv (s : WalkState) : Prop := mkWalkInv {
  inv_axis : axis_ok (direction s);
  inv_side : side_ok (side s);
  inv_center : even_vec (center s);
  inv_blocks : Forall even_vec (blocks s);
  inv_first : hd (center s) (blocks s) = origin
}.

(** The world after shape generation: draws consumed, no [fprintf] and no
    call of the recorded sequence. *)
Definition quiet (w w' : World) : Prop :=
  stderr w' = stderr w /\ gl w' = gl w.

(** The segment lengths against the runs of centers they produce. *)
Definition segment_runs (segments : list Z) (runs : list (list vec3)) : Prop :=
  Forall2 (fun L r => List.length r = Z.to_nat L /\
                      exists d, unit_step d /\ straight d r) segments runs.

(** The world [w] after the OpenGL calls [cs]. *)
Definition emit (w : World) (cs : list GLCall) : World :=
  mkWorld (generator w) (stderr w) (gl w ++ cs).

(** The calls a computation adds to the OpenGL sequence of [w]. *)
Definition emitted {A : Type} (m : M A) (w : World) : list GLCall :=
  skipn (List.length (gl w)) (gl (snd (m w))).

(** The viewports, the uniforms and the draw calls of a call sequence. *)
Definition viewports (cs : list GLCall) : list (Z * Z * Z * Z) :=
  flat_map (fun c => match c with
                     | glViewport x y w h => [(x, y, w, h)]
                     | _ => []
                     end) cs.

Definition uniforms (cs : list GLCall) : list (string * mat4) :=
  flat_map (fun c => match c with
                     | ProgramSetUniform name m => [(name, m)]
                     | _ => []
                     end) cs.

Definition mesh_renders (cs : list GLCall) : list (Mesh * GLenum) :=
  flat_map (fun c => match c with
                     | MeshRender m mode => [(m, mode)]
                     | _ => []
                     end) cs.

(** The values of the loop counter: [i], [i + 1], ..., [n] of them. *)
Definition indices (i : Z) (n : nat) : list Z :=
  map (fun k => i + Z.of_nat k) (seq 0 n).

(** The calls [Demo::render] issues before it looks at the shapes. *)
Definition prelude : list GLCall :=
  [ glClearColor 1 1 1 1;
    glClear [GL_COLOR_BUFFER_BIT; GL_DEPTH_BUFFER_BIT];
    glEnable GL_DEPTH_TEST; glEnable GL_CULL_FACE; glCullFace GL_BACK;
    ProgramBind ].

(** The layout as the spec words it: three columns, ceil(n / 3) rows,
    row-major cells of [W / 3] by [H / rows] pixels. *)
Definition spec_rows (n : Z) : Z := (n + 3 - 1) / 3.

Definition spec_cell (i : Z) : Z * Z := (i mod 3, i / 3).

Definition spec_viewport (W H n i : Z) : Z * Z * Z * Z :=
  let viewportWidth := W / 3 in
  let viewportHeight := H / spec_rows n in
  (fst (spec_cell i) * viewportWidth, snd (spec_cell i) * viewportHeight,
   viewportWidth, viewportHeight).

(** The model matrix as the spec words it: the rotation by -1.5 * time about
    normalize(1,1,1), times the translation by minus the center of the box. *)
Definition spec_model (time : float) (bb : BoundingBox) : mat4 :=
  MMul (MRotate MIdentity (FLit (- (3 # 2) * time)%Q) (VNormalize (ivec 1 1 1)))
       (MTranslate MIdentity (vneg (vscale (1 # 2) (vadd (bbmin bb) (bbmax bb))))).

(** The view matrix as the spec words it. *)
Definition spec_view : mat4 := MLookAt (ivec 0 0 (-18)) (ivec 0 0 0) (ivec 0 1 0).

(** The centers visited by consecutive runs, each of [n] steps of [d],
    starting from [c]. *)
Fixpoint path (c : vec3) (steps : list (nat * vec3)) : list vec3 :=
  match steps with
  | [] => []
  | (n, d) :: rest => run n d c ++ path (moved n d c) rest
  end.

(** Every center is its predecessor moved by 2 or -2 along one axis. *)
Fixpoint linked (l : list vec3) : Prop :=
  match l with
  | [] => True
  | a :: t =>
      match t with
      | [] => True
      | b :: _ => exists d, unit_step d /\ b = vadd a d
      end /\ linked t
  end.

Definition vsub (a b : vec3) : vec3 :=
  mkVec3 (vx a - vx b)%Q (vy a - vy b)%Q (vz a - vz b)%Q.

Definition cross (a b : vec3) : vec3 :=
  mkVec3 (vy a * vz b - vz a * vy b)%Q
         (vz a * vx b - vx a * vz b)%Q
         (vx a * vy b - vy a * vx b)%Q.

Definition dot (a b : vec3) : float :=
  (vx a * vx b + vy a * vy b + vz a * vz b)%Q.

(** The triangles a GL_TRIANGLES draw makes of a vertex sequence: one per
    three consecutive vertices. *)
Fixpoint triangles (vs : list Vertex) : list (vec3 * vec3 * vec3) :=
  match vs with
  | a :: b :: c :: rest => (position a, position b, position c) :: triangles rest
  | _ => []
  end.

(** The triangle [(a, b, c)] is counter-clockwise seen from outside the cube
    at [center]: its normal (b - a) x (c - a) points away from the center. *)
Definition outward (center : vec3) (t : vec3 * vec3 * vec3) : Prop :=
  let '(a, b, c) := t in
  (0 < dot (cross (vsub b a) (vsub c a)) (vsub a center))%Q.

(** [p] is one of the eight corners of the cube of half-extent 1 at [center]. *)
Definition corner (center p : vec3) : Prop :=
  exists i j k : Z,
    (i = 1 \/ i = -1) /\ (j = 1 \/ j = -1) /\ (k = 1 \/ k = -1) /\
    p = vadd (ivec i j k) center.

(** The pixel (px, py) lies in the viewport rectangle. *)
Definition in_tile (v : Z * Z * Z * Z) (px py : Z) : Prop :=
  let '(x, y, w, h) := v in x <= px < x + w /\ y <= py < y + h.

(** The rotation angles of the model matrices among the uniforms of a call
    sequence. *)
Definition angle_of (m : mat4) : list float :=
  match m with
  | MMul _ (MMul (MRotate _ (FLit a) _) _) => [a]
  | _ => []
  end.

Definition angles (cs : list GLCall) : list float :=
  flat_map (fun u => angle_of (snd u)) (uniforms cs).

(** Two generators that agree on their first [k] draws. *)
Definition agree (k : nat) (w1 w2 : World) : Prop :=
  forall n, (n < k)%nat -> generator w1 n = generator w2 n.

(** A generator whose draws are 0 up to index 8 and 1 from there on. *)
Definition zeros_then_ones : World := mkWorld (fun n => (8 <=? n)%nat) [] [].

(** A program on which every step succeeds, one whose vertex shader fails,
    and a demo with six one-cube shapes. *)
Definition good_program : ShaderProgram := mkShaderProgram (fun _ _ => true) true "".

Definition bad_vertex_program : ShaderProgram :=
  mkShaderProgram (fun stage _ => match stage with GL_VERTEX_SHADER => false | _ => true end)
                  true "syntax error".

Definition six_cubes : Demo :=
  mkDemo 640 480 (Some good_program) (repeat (make_shape [origin]) 6) 0.

(** The three coordinates are binary32 values. *)
Definition vec_exact (c : vec3) : Prop :=
  exact32 (vx c) = true /\ exact32 (vy c) = true /\ exact32 (vz c) = true.

(** No sum of the sequence of additions [t + dt1 + dt2 + ...] leaves the
    finite range of binary32. *)
Fixpoint no_overflow (t : float) (dts : list float) : Prop :=
  match dts with
  | [] => True
  | dt :: rest =>
      (Qabs (float_add t dt) <= FLT_MAX)%Q /\ no_overflow (float_add t dt) rest
  end.

(** A generator whose every draw is 0, and a world around it. *)
Definition all_zeros : World := mkWorld (fun _ => false) [] [].

(** A generator that alternates 1, 0, 1, 0, ... *)
Definition alternating : World := mkWorld Nat.even [] [].

(** ** Float and vector arithmetic *)

Lemma Qplus_inject_Z (a b : Z) : (inject_Z a + inject_Z b)%Q = inject_Z (a + b).
Proof.
  unfold Qplus, inject_Z; simpl. now rewrite !Z.mul_1_r.
Qed.


Lemma vadd_ivec (a b c x y z : Z) :
  vadd (ivec a b c) (ivec x y z) = ivec (a + x) (b + y) (c + z).
Proof.
  unfold vadd, ivec; simpl. now rewrite !Qplus_inject_Z.
Qed.

Lemma flt_false_le (x y : float) : flt x y = false -> (y <= x)%Q.
Proof.
  unfold flt. intros H. apply negb_false_iff in H. now apply Qle_bool_iff.
Qed.

Lemma flt_true_lt (x y : float) : flt x y = true -> (x < y)%Q.
Proof.
  unfold flt. intros H. apply negb_true_iff in H.
  apply Qnot_le_lt. intros Hle. apply Qle_bool_iff in Hle. congruence.
Qed.

Lemma fmin_le_l (x y : float) : (fmin x y <= x)%Q.
Proof.
  unfold fmin. destruct (flt y x) eqn:E.
  - apply Qlt_le_weak. now apply flt_true_lt.
  - apply Qle_refl.
Qed.

Lemma fmin_le_r (x y : float) : (fmin x y <= y)%Q.
Proof.
  unfold fmin. destruct (flt y x) eqn:E.
  - apply Qle_refl.
  - now apply flt_false_le.
Qed.

Lemma fmax_ge_l (x y : float) : (x <= fmax x y)%Q.
Proof.
  unfold fmax. destruct (flt x y) eqn:E.
  - apply Qlt_le_weak. now apply flt_true_lt.
  - apply Qle_refl.
Qed.

Lemma fmax_ge_r (x y : float) : (y <= fmax x y)%Q.
Proof.
  unfold fmax. destruct (flt x y) eqn:E.
  - apply Qle_refl.
  - now apply flt_false_le.
Qed.

Lemma vle_refl (a : vec3) : vle a a.
Proof. repeat split; apply Qle_refl. Qed.

Lemma vle_trans (a b c : vec3) : vle a b -> vle b c -> vle a c.
Proof.
  intros (H1 & H2 & H3) (K1 & K2 & K3).
  repeat split; eapply Qle_trans; eassumption.
Qed.

Lemma vmin_le_l (a b : vec3) : vle (vmin a b) a.
Proof. repeat split; apply fmin_le_l. Qed.

Lemma vmin_le_r (a b : vec3) : vle (vmin a b) b.
Proof. repeat split; apply fmin_le_r. Qed.

Lemma vmax_ge_l (a b : vec3) : vle a (vmax a b).
Proof. repeat split; apply fmax_ge_l. Qed.

Lemma vmax_ge_r (a b : vec3) : vle b (vmax a b).
Proof. repeat split; apply fmax_ge_r. Qed.

(** ** Rounding to single precision *)

Lemma pow2_pos (e : Z) : (0 < 2 ^ e)%Q.
Proof. apply Qpower_0_lt. reflexivity. Qed.

Lemma pow2_split (e1 e2 : Z) :
  e1 <= e2 -> (2 ^ e2 == inject_Z (2 ^ (e2 - e1)) * 2 ^ e1)%Q.
Proof.
  intros H. rewrite Zpower_Qpower by lia.
  change (inject_Z 2) with 2%Q.
  rewrite <- Qpower_plus by discriminate.
  replace (e2 - e1 + e1) with e2 by lia. reflexivity.
Qed.

Lemma pow2_le (e1 e2 : Z) : e1 <= e2 -> (2 ^ e1 <= 2 ^ e2)%Q.
Proof.
  intros H. rewrite (pow2_split e1 e2 H).
  assert (1 <= 2 ^ (e2 - e1))
    by (pose proof (Z.pow_pos_nonneg 2 (e2 - e1) ltac:(lia) ltac:(lia)); lia).
  pose proof (pow2_pos e1).
  assert (Hq : (1 <= inject_Z (2 ^ (e2 - e1)))%Q).
  { change 1%Q with (inject_Z 1). rewrite <- Zle_Qle. lia. }
  nra.
Qed.

Lemma ilog2_spec (n d : positive) :
  (2 ^ ilog2 n d <= Zpos n # d)%Q /\ (Zpos n # d < 2 ^ (ilog2 n d + 1))%Q.
Proof.
  unfold ilog2.
  set (a := Z.log2 (Zpos n)). set (b := Z.log2 (Zpos d)).
  destruct (Z.log2_spec (Zpos n) ltac:(lia)) as [Ha1 Ha2]. fold a in Ha1, Ha2.
  destruct (Z.log2_spec (Zpos d) ltac:(lia)) as [Hb1 Hb2]. fold b in Hb1, Hb2.
  assert (Ha0 : 0 <= a) by apply Z.log2_nonneg.
  assert (Hb0 : 0 <= b) by apply Z.log2_nonneg.
  (* upper: q < 2^(a-b+1) *)
  assert (Hup : (Zpos n # d < 2 ^ (a - b + 1))%Q).
  { apply (Qmult_lt_r _ _ (2 ^ b)%Q (pow2_pos b)).
    rewrite <- Qpower_plus by discriminate.
    replace (a - b + 1 + b) with (a + 1) by lia.
    rewrite <- !(Zpower_Qpower 2) by lia.
    unfold Qlt, Qmult, inject_Z; cbn [Qnum Qden].
    replace (a + 1) with (Z.succ a) by lia. nia. }
  assert (Hlo : (2 ^ (a - b - 1) < Zpos n # d)%Q).
  { apply (Qmult_lt_r _ _ (2 ^ (b + 1))%Q (pow2_pos (b + 1))).
    rewrite <- Qpower_plus by discriminate.
    replace (a - b - 1 + (b + 1)) with a by lia.
    rewrite <- !(Zpower_Qpower 2) by lia.
    unfold Qlt, Qmult, inject_Z; cbn [Qnum Qden].
    replace (b + 1) with (Z.succ b) by lia. nia. }
  destruct (Qle_bool (2 ^ (a - b)) (Zpos n # d)) eqn:E.
  - apply Qle_bool_iff in E. split; assumption.
  - assert (Hlt : (Zpos n # d < 2 ^ (a - b))%Q).
    { apply Qnot_le_lt. intros Hle. apply Qle_bool_iff in Hle. congruence. }
    replace (a - b - 1 + 1) with (a - b) by lia.
    split; [now apply Qlt_le_weak | assumption].
Qed.

Lemma ulp_exponent_ge (q : Q) : -149 <= ulp_exponent q.
Proof. unfold ulp_exponent. destruct (Qnum q); lia. Qed.

Lemma exact32_decomp (t : Q) :
  exact32 t = true -> exists m : Z, (t == inject_Z m * 2 ^ ulp_exponent t)%Q.
Proof.
  unfold exact32. intros H. apply Qeq_bool_iff in H.
  exists (rne (t / 2 ^ ulp_exponent t)). rewrite H.
  field. apply Qpower_not_0. discriminate.
Qed.

Lemma rne_ge_floor (s : Q) : Qfloor s <= rne s.
Proof.
  unfold rne. destruct (Qcompare _ _); try destruct (Z.even _); lia.
Qed.

Lemma grid_below (t y : Q) :
  exact32 t = true -> (t <= y)%Q ->
  exists g : Z,
    (t <= inject_Z g * 2 ^ ulp_exponent y)%Q /\
    (inject_Z g * 2 ^ ulp_exponent y <= y)%Q.
Proof.
  intros Ht Hle.
  destruct (exact32_decomp t Ht) as (mt & Et).
  pose proof (ulp_exponent_ge t) as Hget.
  assert (Het : forall pt dt, t = (Zpos pt # dt) \/ t = (Zneg pt # dt) ->
                              ilog2 pt dt - 23 <= ulp_exponent t).
  { intros pt dt [-> | ->]; cbn [ulp_exponent Qnum Qden]; lia. }
  destruct (Z_le_gt_dec (ulp_exponent y) (ulp_exponent t)) as [Hee | Hee].
  - exists (mt * 2 ^ (ulp_exponent t - ulp_exponent y)).
    assert (E : (inject_Z (mt * 2 ^ (ulp_exponent t - ulp_exponent y))
                 * 2 ^ ulp_exponent y == t)%Q).
    { rewrite inject_Z_mult, <- Qmult_assoc, <- (pow2_split _ _ Hee). now symmetry. }
    rewrite E. split; [apply Qle_refl | exact Hle].
  - destruct y as [ny dy]. destruct ny as [| p | p].
    + change (ulp_exponent (0 # dy)) with (-149) in Hee. lia.
    + change (ulp_exponent (Zpos p # dy)) with (Z.max (ilog2 p dy - 23) (-149)) in *.
      destruct (ilog2_spec p dy) as [Hy1 Hy2].
      assert (He : Z.max (ilog2 p dy - 23) (-149) = ilog2 p dy - 23) by lia.
      rewrite He in *.
      destruct t as [nt dt]. destruct nt as [| pt | pt].
      * exists 0. split; [| unfold Qle; cbn; lia].
        rewrite Qmult_0_l. unfold Qle; cbn; lia.
      * specialize (Het pt dt (or_introl eq_refl)).
        destruct (ilog2_spec pt dt) as [Ht1 Ht2].
        exists (2 ^ 23).
        assert (E : (inject_Z (2 ^ 23) * 2 ^ (ilog2 p dy - 23) == 2 ^ ilog2 p dy)%Q).
        { rewrite (pow2_split (ilog2 p dy - 23) (ilog2 p dy)) by lia.
          replace (ilog2 p dy - (ilog2 p dy - 23)) with 23 by lia. reflexivity. }
        rewrite E. split; [| exact Hy1].
        apply Qlt_le_weak. eapply Qlt_le_trans; [exact Ht2 |].
        apply pow2_le. lia.
      * exists 0. split; [| unfold Qle; cbn; lia].
        rewrite Qmult_0_l. unfold Qle; cbn; lia.
    + exfalso.
      change (ulp_exponent (Zneg p # dy)) with (Z.max (ilog2 p dy - 23) (-149)) in *.
      destruct (ilog2_spec p dy) as [Hy1 Hy2].
      destruct t as [nt dt]. destruct nt as [| pt | pt].
      * unfold Qle in Hle; cbn in Hle; lia.
      * unfold Qle in Hle; cbn in Hle; lia.
      * specialize (Het pt dt (or_intror eq_refl)).
        destruct (ilog2_spec pt dt) as [Ht1 Ht2].
        assert (Hp : (2 ^ (ilog2 pt dt + 1) <= 2 ^ ilog2 p dy)%Q) by (apply pow2_le; lia).
        assert (Habs : (Zpos p # dy <= Zpos pt # dt)%Q).
        { unfold Qle in *; cbn in *; lia. }
        lra.
Qed.

Lemma round32_ge (t y : Q) :
  exact32 t = true -> (t <= y)%Q -> (t <= round32 y)%Q.
Proof.
  intros Ht Hle. unfold round32. destruct (exact32 y); [exact Hle |].
  destruct (grid_below t y Ht Hle) as (g & Hg1 & Hg2).
  pose proof (pow2_pos (ulp_exponent y)) as Hp.
  eapply Qle_trans; [exact Hg1 |].
  apply Qmult_le_compat_r; [| now apply Qlt_le_weak].
  rewrite <- Zle_Qle.
  eapply Z.le_trans; [| apply rne_ge_floor].
  rewrite <- (Qfloor_Z g) at 1. apply Qfloor_resp_le.
  apply Qle_shift_div_l; assumption.
Qed.

Lemma rne_le_floor (s : Q) : rne s <= Qfloor s + 1.
Proof.
  unfold rne. destruct (Qcompare _ _); try destruct (Z.even _); lia.
Qed.

Lemma rne_integer (s : Q) (k : Z) : (s == inject_Z k)%Q -> rne s = k.
Proof.
  intros E. unfold rne.
  assert (Hf : Qfloor s = k) by (rewrite E; apply Qfloor_Z).
  rewrite Hf.
  assert (Hc : ((s - inject_Z k) ?= (1 # 2))%Q = Lt).
  { apply Qlt_alt. rewrite E. setoid_replace (inject_Z k - inject_Z k)%Q with 0%Q by ring.
    reflexivity. }
  now rewrite Hc.
Qed.

Lemma exact32_integer (r : Q) (k : Z) :
  (r / 2 ^ ulp_exponent r == inject_Z k)%Q -> exact32 r = true.
Proof.
  intros E. unfold exact32. apply Qeq_bool_iff.
  rewrite (rne_integer _ k E). now symmetry.
Qed.

Lemma pow2_nonzero (e : Z) : ~ (2 ^ e == 0)%Q.
Proof. apply Qpower_not_0. discriminate. Qed.

Lemma ilog2_of_grid (n d : positive) (m e : Z) :
  0 < m <= 2 ^ 24 ->
  (Zpos n # d == inject_Z m * 2 ^ e)%Q ->
  ilog2 n d - 23 <= e \/ (m = 2 ^ 24 /\ ilog2 n d - 23 = e + 1).
Proof.
  intros Hm E.
  destruct (Z_le_gt_dec (ilog2 n d - 23) e) as [H | H]; [now left | right].
  destruct (ilog2_spec n d) as [H1 _]. rewrite E in H1.
  rewrite (pow2_split e (ilog2 n d)) in H1 by lia.
  apply Qmult_le_r in H1; [| apply pow2_pos].
  rewrite <- Zle_Qle in H1.
  assert (Hk : ilog2 n d - e <= 24).
  { destruct (Z_le_gt_dec (ilog2 n d - e) 24) as [? | Hgt]; [assumption |].
    pose proof (Z.pow_lt_mono_r 2 24 (ilog2 n d - e) ltac:(lia) ltac:(lia) ltac:(lia)). lia. }
  assert (ilog2 n d - e = 24) by lia.
  split; [| lia]. replace (ilog2 n d - e) with 24 in H1 by lia. lia.
Qed.

Lemma exact32_grid (r : Q) (m e : Z) :
  -149 <= e -> - 2 ^ 24 <= m <= 2 ^ 24 ->
  (r == inject_Z m * 2 ^ e)%Q -> exact32 r = true.
Proof.
  intros He Hm E.
  assert (Hfine : ulp_exponent r <= e -> exact32 r = true).
  { intros Hle. apply (exact32_integer r (m * 2 ^ (e - ulp_exponent r))).
    pose proof (pow2_split _ _ Hle) as Hs.
    pose proof (pow2_nonzero (ulp_exponent r)) as Hnz.
    rewrite inject_Z_mult.
    remember (ulp_exponent r) as e' eqn:Ee'. clear Ee'.
    rewrite E, Hs. field. exact Hnz. }
  assert (Hstep : ulp_exponent r = e + 1 -> (m = 2 ^ 24 \/ m = - 2 ^ 24) ->
                  exact32 r = true).
  { intros He' Hm'.
    apply (exact32_integer r (m / 2)).
    rewrite He'.
    pose proof (pow2_split e (e + 1) ltac:(lia)) as Hs.
    replace (e + 1 - e) with 1 in Hs by lia.
    pose proof (pow2_nonzero e) as Hnz.
    rewrite E, Hs.
    destruct Hm' as [-> | ->]; cbn; field; exact Hnz. }
  destruct r as [nr dr]. destruct nr as [| n | n].
  - apply Hfine. cbn. lia.
  - assert (Hpos : 0 < m).
    { destruct (Z_lt_le_dec 0 m) as [? | Hneg]; [assumption | exfalso].
      assert (Hq : (inject_Z m <= 0)%Q) by (change 0%Q with (inject_Z 0); now rewrite <- Zle_Qle).
      pose proof (pow2_pos e).
      assert ((0 < Zpos n # dr)%Q) by reflexivity. nra. }
    destruct (ilog2_of_grid n dr m e ltac:(lia) E) as [H | [H1 H2]].
    + apply Hfine. cbn [ulp_exponent Qnum Qden]. lia.
    + apply Hstep; [cbn [ulp_exponent Qnum Qden]; lia | now left].
  - assert (E' : (Zpos n # dr == inject_Z (- m) * 2 ^ e)%Q).
    { rewrite inject_Z_opp. change (Zpos n # dr) with (- (Zneg n # dr))%Q.
      rewrite E. ring. }
    assert (Hpos : 0 < - m).
    { destruct (Z_lt_le_dec 0 (- m)) as [? | Hneg]; [assumption | exfalso].
      assert (Hq : (inject_Z (- m) <= 0)%Q) by (change 0%Q with (inject_Z 0); now rewrite <- Zle_Qle).
      pose proof (pow2_pos e).
      assert ((0 < Zpos n # dr)%Q) by reflexivity. nra. }
    destruct (ilog2_of_grid n dr (- m) e ltac:(lia) E') as [H | [H1 H2]].
    + apply Hfine. cbn [ulp_exponent Qnum Qden]. lia.
    + apply Hstep; [cbn [ulp_exponent Qnum Qden]; lia | right; lia].
Qed.

Lemma scaled_bound (y : Q) :
  (inject_Z (- 2 ^ 24) < y / 2 ^ ulp_exponent y < inject_Z (2 ^ 24))%Q.
Proof.
  pose proof (pow2_pos (ulp_exponent y)) as Hp.
  assert (HK : (0 < inject_Z (2 ^ 24))%Q) by reflexivity.
  assert (Hgrid : forall n d, (Zpos n # d < inject_Z (2 ^ 24)
                               * 2 ^ Z.max (ilog2 n d - 23) (-149))%Q).
  { intros n d. destruct (ilog2_spec n d) as [_ H2].
    eapply Qlt_le_trans; [exact H2 |].
    set (e := Z.max (ilog2 n d - 23) (-149)).
    pose proof (pow2_split e (e + 24) ltac:(lia)) as Hs.
    replace (e + 24 - e) with 24 in Hs by lia.
    rewrite <- Hs. apply pow2_le. lia. }
  assert (Hred : (- (inject_Z (2 ^ 24) * 2 ^ ulp_exponent y) < y)%Q ->
                 (y < inject_Z (2 ^ 24) * 2 ^ ulp_exponent y)%Q ->
                 (inject_Z (- 2 ^ 24) < y / 2 ^ ulp_exponent y < inject_Z (2 ^ 24))%Q).
  { intros H1 H2. split.
    - apply Qlt_shift_div_l; [exact Hp |]. rewrite inject_Z_opp.
      setoid_replace (- inject_Z (2 ^ 24) * 2 ^ ulp_exponent y)%Q
        with (- (inject_Z (2 ^ 24) * 2 ^ ulp_exponent y))%Q by ring.
      exact H1.
    - apply Qlt_shift_div_r; [exact Hp | exact H2]. }
  assert (Hkp : (0 < inject_Z (2 ^ 24) * 2 ^ ulp_exponent y)%Q).
  { apply Qmult_lt_0_compat; assumption. }
  apply Hred; clear Hred.
  - destruct y as [ny dy]. destruct ny as [| n | n].
    + assert ((0 # dy == 0)%Q) by reflexivity. lra.
    + assert ((0 < Zpos n # dy)%Q) by reflexivity. lra.
    + change (ulp_exponent (Zneg n # dy)) with (Z.max (ilog2 n dy - 23) (-149)) in *.
      specialize (Hgrid n dy).
      change (Zneg n # dy) with (- (Zpos n # dy))%Q. lra.
  - destruct y as [ny dy]. destruct ny as [| n | n].
    + assert ((0 # dy == 0)%Q) by reflexivity. lra.
    + change (ulp_exponent (Zpos n # dy)) with (Z.max (ilog2 n dy - 23) (-149)) in *.
      apply Hgrid.
    + assert ((Zneg n # dy < 0)%Q) by reflexivity. lra.
Qed.

Lemma rne_bound (y : Q) :
  - 2 ^ 24 <= rne (y / 2 ^ ulp_exponent y) <= 2 ^ 24.
Proof.
  destruct (scaled_bound y) as [H1 H2].
  set (s := (y / 2 ^ ulp_exponent y)%Q) in *.
  pose proof (rne_ge_floor s). pose proof (rne_le_floor s).
  assert (- 2 ^ 24 <= Qfloor s).
  { rewrite <- (Qfloor_Z (- 2 ^ 24)). apply Qfloor_resp_le. now apply Qlt_le_weak. }
  assert (Qfloor s < 2 ^ 24).
  { rewrite Zlt_Qlt. eapply Qle_lt_trans; [apply Qfloor_le | exact H2]. }
  lia.
Qed.

Lemma round32_exact (y : Q) : exact32 (round32 y) = true.
Proof.
  unfold round32. destruct (exact32 y) eqn:E; [exact E |].
  apply (exact32_grid _ (rne (y / 2 ^ ulp_exponent y)) (ulp_exponent y)).
  - apply ulp_exponent_ge.
  - apply rne_bound.
  - reflexivity.
Qed.




Lemma float_add_ge (t dt : float) :
  exact32 t = true -> (0 <= dt)%Q -> (t <= float_add t dt)%Q.
Proof.
  intros Ht Hdt. apply round32_ge; [exact Ht | lra].
Qed.

(** The rounding on the values of some single-precision sums: 2^24 + 1,
    2^25 + 2, (2^24 + 2) + 1, (2^24 + 2) - 1, and 0.1f + 0.1f + 0.1f. *)
Lemma round32_samples :
  (round32 (inject_Z (2 ^ 24) + 1) == inject_Z (2 ^ 24))%Q /\
  (round32 (inject_Z (2 ^ 25) + 2) == inject_Z (2 ^ 25))%Q /\
  (round32 (inject_Z (2 ^ 24 + 2) + 1) == inject_Z (2 ^ 24 + 4))%Q /\
  (round32 (inject_Z (2 ^ 24 + 2) - 1) == inject_Z (2 ^ 24))%Q /\
  (round32 (1 # 10) == 13421773 # 134217728)%Q /\
  (float_add (float_add (13421773 # 134217728) (13421773 # 134217728))
             (13421773 # 134217728) == 5033165 # 16777216)%Q.
Proof. repeat split; vm_compute; reflexivity. Qed.

Lemma exact32_int (z : Z) : Z.abs z <= 2 ^ 24 -> exact32 (inject_Z z) = true.
Proof.
  intros H. apply (exact32_grid _ z 0); [lia | lia |].
  change (2 ^ 0)%Q with 1%Q. ring.
Qed.

Lemma exact32_even (z : Z) : Z.abs z <= 2 ^ 24 -> exact32 (inject_Z (2 * z)) = true.
Proof.
  intros H. apply (exact32_grid _ z 1); [lia | lia |].
  rewrite inject_Z_mult. change (2 ^ 1)%Q with 2%Q. change (inject_Z 2) with 2%Q. ring.
Qed.

Lemma within_exact (b : Z) (c : vec3) : b <= 2 ^ 24 -> within b c -> vec_exact c.
Proof.
  intros Hb (i & j & k & -> & Hi & Hj & Hk).
  repeat split; cbn [ivec vx vy vz]; apply exact32_int; lia.
Qed.

(** ** The direction and the step vector *)

Lemma step_vector_along (s : WalkState) :
  axis_ok (direction s) -> side_ok (side s) -> along (direction s) (step_vector s).
Proof.
  unfold step_vector. intros [Hd | [Hd | Hd]] [Hs | Hs]; rewrite Hd, Hs.
  - exists 1; split; [now left | right; right; split; reflexivity].
  - exists (-1); split; [now right | right; right; split; reflexivity].
  - exists 1; split; [now left | right; left; split; reflexivity].
  - exists (-1); split; [now right | right; left; split; reflexivity].
  - exists 1; split; [now left | left; split; reflexivity].
  - exists (-1); split; [now right | left; split; reflexivity].
Qed.

Lemma along_unit_step (direction : Z) (d : vec3) : along direction d -> unit_step d.
Proof.
  intros (sgn & Hs & [[_ H] | [[_ H] | [_ H]]]); exists sgn; split; auto.
Qed.

Lemma step_vector_unit (s : WalkState) :
  axis_ok (direction s) -> side_ok (side s) -> unit_step (step_vector s).
Proof.
  intros Ha Hs. eapply along_unit_step. now apply step_vector_along.
Qed.

Lemma even_vec_step (c d : vec3) :
  even_vec c -> unit_step d -> even_vec (vadd c d).
Proof.
  intros (i & j & k & ->) (sgn & _ & [-> | [-> | ->]]); rewrite vadd_ivec.
  - exists (i + sgn), j, k. f_equal; lia.
  - exists i, (j + sgn), k. f_equal; lia.
  - exists i, j, (k + sgn). f_equal; lia.
Qed.

Lemma even_vec_origin : even_vec origin.
Proof. now exists 0, 0, 0. Qed.

(** ** The inner loop *)

Lemma place_spec (n : nat) (d c : vec3) (bl : list vec3) :
  place n d c bl = (moved n d c, bl ++ run n d c).
Proof.
  revert c bl. induction n as [| n IH]; intros c bl; simpl.
  - now rewrite app_nil_r.
  - rewrite IH. now rewrite <- app_assoc.
Qed.

Lemma run_length (n : nat) (d c : vec3) : List.length (run n d c) = n.
Proof.
  revert c. induction n as [| n IH]; intros c; simpl; [reflexivity |].
  now rewrite IH.
Qed.

Lemma run_straight (n : nat) (d c : vec3) : straight d (run n d c).
Proof.
  revert c. induction n as [| n IH]; intros c i a a' Ha Ha'.
  - destruct i; discriminate.
  - destruct i as [| i]; simpl in Ha, Ha'.
    + injection Ha as <-. destruct n; simpl in Ha'; [discriminate |].
      now injection Ha' as <-.
    + eapply IH; eassumption.
Qed.

Lemma run_even (n : nat) (d c : vec3) :
  unit_step d -> even_vec c -> Forall even_vec (run n d c) /\ even_vec (moved n d c).
Proof.
  intros Hd. revert c. induction n as [| n IH]; intros c Hc; simpl.
  - split; [constructor | assumption].
  - destruct (IH (vadd c d) (even_vec_step _ _ Hc Hd)) as [H1 H2].
    split; [constructor |]; assumption.
Qed.

Lemma run_head (n : nat) (d c : vec3) : hd (moved n d c) (run n d c) = c.
Proof. destruct n; reflexivity. Qed.

Lemma hd_app_run (bl : list vec3) (n : nat) (d c : vec3) :
  hd c bl = origin -> hd (moved n d c) (bl ++ run n d c) = origin.
Proof.
  destruct bl as [| b bl]; simpl; intros H; [| assumption].
  now rewrite run_head.
Qed.

(** ** The switch and one segment *)

Lemma turn_spec (direction : Z) (w : World) :
  axis_ok direction ->
  exists direction',
    turn direction w =
      (Ok direction', mkWorld (fun n => generator w (S n)) (stderr w) (gl w)) /\
    axis_ok direction' /\ direction' <> direction.
Proof.
  unfold axis_ok.
  intros [-> | [-> | ->]]; cbn; destruct (generator w 0%nat);
    eexists; (split; [reflexivity |]); lia.
Qed.

Lemma segment_spec (s : WalkState) (L : Z) (w : World) :
  walk_inv s ->
  exists s' w',
    segment s L w = (Ok s', w') /\ quiet w w' /\
    walk_inv s' /\ direction s' <> direction s /\
    blocks s' = blocks s ++ run (Z.to_nat L) (step_vector s) (center s) /\
    center s' = moved (Z.to_nat L) (step_vector s) (center s).
Proof.
  intros [Ha Hs Hc Hb Hf].
  destruct (turn_spec (direction s) w Ha) as (d' & Et & Ha' & Hne).
  pose proof (step_vector_unit s Ha Hs) as Hu.
  destruct (run_even (Z.to_nat L) _ _ Hu Hc) as [Hr Hm].
  unfold segment. rewrite place_spec. unfold bind at 1. rewrite Et. cbn.
  eexists; eexists. split; [reflexivity |].
  split; [split; reflexivity |].
  split; [| repeat split; assumption].
  constructor; cbn.
  - assumption.
  - destruct (generator w 1%nat); [| assumption].
    destruct Hs as [-> | ->]; [right | left]; reflexivity.
  - assumption.
  - apply Forall_app; split; assumption.
  - now apply hd_app_run.
Qed.

Lemma walk_init_inv : walk_inv walk_init.
Proof.
  constructor; cbn.
  - right; left; reflexivity.
  - left; reflexivity.
  - apply even_vec_origin.
  - constructor.
  - reflexivity.
Qed.

Lemma walk_from_spec (segments : list Z) :
  forall (s : WalkState) (w : World),
    walk_inv s ->
    exists s' w' runs,
      walk_from s segments w = (Ok s', w') /\ quiet w w' /\ walk_inv s' /\
      blocks s' = blocks s ++ List.concat runs /\ segment_runs segments runs.
Proof.
  induction segments as [| L rest IH]; intros s w Hs.
  - exists s, w, []. cbn. rewrite app_nil_r.
    split; [reflexivity |]. split; [split; reflexivity |].
    split; [assumption |]. split; [reflexivity | constructor].
  - destruct (segment_spec s L w Hs) as (s1 & w1 & E1 & [Q1 Q1'] & I1 & _ & B1 & _).
    destruct (IH s1 w1 I1) as (s2 & w2 & runs & E2 & [Q2 Q2'] & I2 & B2 & R2).
    exists s2, w2, (run (Z.to_nat L) (step_vector s) (center s) :: runs).
    cbn [walk_from]. unfold bind. rewrite E1, E2.
    split; [reflexivity |].
    split; [split; congruence |].
    split; [assumption |].
    split.
    + rewrite B2, B1. cbn [List.concat]. now rewrite app_assoc.
    + constructor; [| assumption].
      split; [apply run_length |].
      exists (step_vector s). split; [| apply run_straight].
      destruct Hs. now apply step_vector_unit.
Qed.

Lemma walk_from_app (a b : list Z) :
  forall (s : WalkState) (w : World),
    walk_from s (a ++ b) w = bind (walk_from s a) (fun s' => walk_from s' b) w.
Proof.
  induction a as [| L a IH]; intros s w; cbn [walk_from app].
  - reflexivity.
  - unfold bind in *. destruct (segment s L w) as [[s1 | e] w1].
    + apply IH.
    + reflexivity.
Qed.

Lemma segment_runs_length (segments : list Z) (runs : list (list vec3)) :
  segment_runs segments runs -> List.length (List.concat runs) = cubes segments.
Proof.
  induction 1 as [| L r segments runs [Hl _] _ IH]; cbn.
  - reflexivity.
  - now rewrite length_app, Hl, IH.
Qed.


Lemma cubes_positive (segments : list Z) :
  (exists L, In L segments /\ 1 <= L) -> (0 < cubes segments)%nat.
Proof.
  intros (L & Hin & HL). induction segments as [| L' rest IH]; [destruct Hin |].
  unfold cubes in *. cbn [fold_right]. destruct Hin as [-> | Hin].
  - assert (0 < Z.to_nat L)%nat by (apply Nat2Z.inj_lt; rewrite Z2Nat.id; lia). lia.
  - specialize (IH Hin). lia.
Qed.

(** ** Vertices and the bounding box *)

Lemma fold_cube (bl : list vec3) (acc : list Vertex) :
  fold_left (fun vertices c => vertices ++ cube c) bl acc = acc ++ flat_map cube bl.
Proof.
  revert acc. induction bl as [| b bl IH]; intros acc; cbn [fold_left flat_map].
  - now rewrite app_nil_r.
  - rewrite IH. now rewrite app_assoc.
Qed.

Lemma build_vertices_flat (bl : list vec3) : build_vertices bl = flat_map cube bl.
Proof. unfold build_vertices. now rewrite fold_cube. Qed.

Lemma build_vertices_length (bl : list vec3) :
  List.length (build_vertices bl) = (36 * List.length bl)%nat.
Proof.
  rewrite build_vertices_flat. induction bl as [| b bl IH]; [reflexivity |].
  cbn [flat_map]. rewrite length_app, IH.
  change (List.length (cube b)) with 36%nat. cbn [List.length]. lia.
Qed.

Lemma bb_fold_mono (vs : list Vertex) :
  forall bb : BoundingBox,
    vle (bbmin (fold_left bb_step vs bb)) (bbmin bb) /\
    vle (bbmax bb) (bbmax (fold_left bb_step vs bb)).
Proof.
  induction vs as [| v vs IH]; intros bb; cbn [fold_left].
  - split; apply vle_refl.
  - destruct (IH (bb_step bb v)) as [H1 H2]. split.
    + eapply vle_trans; [exact H1 | apply vmin_le_l].
    + eapply vle_trans; [apply vmax_ge_l | exact H2].
Qed.

Lemma bb_cube_origin :
  fold_left bb_step (cube origin) bb_init =
  mkBoundingBox (ivec (-1) (-1) (-1)) (ivec 1 1 1).
Proof. vm_compute. reflexivity. Qed.

Lemma bounding_box_contains_first (bl : list vec3) :
  let bb := boundingBox (make_shape (origin :: bl)) in
  vle (bbmin bb) (ivec (-1) (-1) (-1)) /\ vle (ivec 1 1 1) (bbmax bb).
Proof.
  cbn [make_shape boundingBox]. unfold bounding_box.
  rewrite build_vertices_flat. cbn [flat_map].
  rewrite fold_left_app, bb_cube_origin.
  apply (bb_fold_mono (flat_map cube bl)
           (mkBoundingBox (ivec (-1) (-1) (-1)) (ivec 1 1 1))).
Qed.

(** ** The range of the coordinates

    The centers are integer vectors of magnitude at most twice the number of
    cubes, and the vertices at most one more: below 2^24 the float arithmetic
    of the generator is exact. *)

Lemma within_mono (b b' : Z) (c : vec3) : b <= b' -> within b c -> within b' c.
Proof.
  intros Hb (i & j & k & -> & Hi & Hj & Hk). exists i, j, k.
  repeat split; try reflexivity; lia.
Qed.

Lemma within_step (b : Z) (c d : vec3) :
  within b c -> unit_step d -> within (b + 2) (vadd c d).
Proof.
  intros (i & j & k & -> & Hi & Hj & Hk) (sgn & Hs & [-> | [-> | ->]]);
    rewrite vadd_ivec; eexists _, _, _; (split; [reflexivity |]); lia.
Qed.

Lemma run_within (n : nat) (d : vec3) :
  unit_step d ->
  forall (b : Z) (c : vec3),
    within b c ->
    Forall (within (b + 2 * Z.of_nat n)) (run n d c) /\
    within (b + 2 * Z.of_nat n) (moved n d c).
Proof.
  intros Hd. induction n as [| n IH]; intros b c Hc.
  - cbn. rewrite Z.add_0_r. split; [constructor | assumption].
  - cbn [run moved].
    destruct (IH (b + 2) (vadd c d) (within_step _ _ _ Hc Hd)) as [H1 H2].
    replace (b + 2 * Z.of_nat (S n)) with (b + 2 + 2 * Z.of_nat n) by lia.
    split; [| exact H2].
    constructor; [| exact H1].
    apply (within_mono b); [lia | exact Hc].
Qed.

Lemma cube_within (b : Z) (c : vec3) :
  within b c -> Forall (fun v => within (b + 1) (position v)) (cube c).
Proof.
  intros (i & j & k & -> & Hi & Hj & Hk).
  unfold cube, addFace. cbn [app].
  repeat (constructor;
          [cbn [position]; rewrite vadd_ivec; eexists _, _, _;
           (split; [reflexivity |]); lia |]).
  constructor.
Qed.

Lemma walk_from_within (segments : list Z) :
  forall (s : WalkState) (w : World),
    walk_inv s ->
    within (2 * Z.of_nat (List.length (blocks s))) (center s) ->
    Forall (within (2 * Z.of_nat (List.length (blocks s)))) (blocks s) ->
    exists s' w',
      walk_from s segments w = (Ok s', w') /\
      Forall (within (2 * Z.of_nat (List.length (blocks s')))) (blocks s').
Proof.
  induction segments as [| L rest IH]; intros s w Hs Hc Hb.
  - exists s, w. split; [reflexivity | assumption].
  - destruct (segment_spec s L w Hs) as (s1 & w1 & E1 & _ & I1 & _ & B1 & C1).
    assert (Hu : unit_step (step_vector s)) by (destruct Hs; now apply step_vector_unit).
    destruct (run_within (Z.to_nat L) _ Hu _ _ Hc) as [Hr Hm].
    assert (Hlen : Z.of_nat (List.length (blocks s1))
                   = Z.of_nat (List.length (blocks s)) + Z.of_nat (Z.to_nat L)).
    { rewrite B1, length_app, run_length. lia. }
    replace (2 * Z.of_nat (List.length (blocks s)) + 2 * Z.of_nat (Z.to_nat L))
      with (2 * Z.of_nat (List.length (blocks s1))) in Hr, Hm by lia.
    destruct (IH s1 w1 I1) as (s2 & w2 & E2 & H2).
    + now rewrite C1.
    + rewrite B1 at 2. apply Forall_app. split; [| exact Hr].
      eapply Forall_impl; [| exact Hb]. intros c. apply within_mono. lia.
    + exists s2, w2. split; [| exact H2].
      cbn [walk_from]. unfold bind. now rewrite E1.
Qed.

Lemma generated_coordinates_bounded (segments : list Z) (w : World) :
  exists centers w',
    walk segments w = (Ok centers, w') /\
    Forall (within (2 * Z.of_nat (List.length centers))) centers /\
    Forall (fun v => within (2 * Z.of_nat (List.length centers) + 1) (position v))
           (build_vertices centers).
Proof.
  destruct (walk_from_within segments walk_init w walk_init_inv) as (s & w' & E & Hb).
  - exists 0, 0, 0. cbn. repeat split; reflexivity || lia.
  - constructor.
  - exists (blocks s), w'. split; [| split; [exact Hb |]].
    + unfold walk, bind, ret. now rewrite E.
    + rewrite build_vertices_flat. apply Forall_flat_map.
      eapply Forall_impl; [| exact Hb]. intros c. apply cube_within.
Qed.

(** ** The generated shape *)

Lemma initializeShape_spec (segments : list Z) (w : World) :
  exists centers runs w',
    walk segments w = (Ok centers, w') /\
    initializeShape segments w = (Ok (make_shape centers), w') /\
    quiet w w' /\
    Forall even_vec centers /\ hd origin centers = origin /\
    centers = List.concat runs /\ segment_runs segments runs.
Proof.
  destruct (walk_from_spec segments walk_init w walk_init_inv)
    as (s & w' & runs & E & Hq & [_ _ _ Hb Hf] & B & R).
  exists (blocks s), runs, w'.
  unfold initializeShape, walk, bind, ret. rewrite E.
  repeat (split; [reflexivity || assumption |]).
  split; [| split; assumption].
  cbn in B. rewrite B in Hf |- *.
  destruct (List.concat runs) as [| b bl] eqn:Ec; [reflexivity | exact Hf].
Qed.

Lemma box_strict (a b : vec3) :
  vle a (ivec (-1) (-1) (-1)) -> vle (ivec 1 1 1) b -> vlt a b.
Proof.
  intros (H1 & H2 & H3) (K1 & K2 & K3).
  assert (Hlt : (inject_Z (-1) < inject_Z 1)%Q) by reflexivity.
  repeat split;
    (eapply Qle_lt_trans; [eassumption |]);
    (eapply Qlt_le_trans; [exact Hlt | eassumption]).
Qed.

Lemma vlt_vle (a b : vec3) : vlt a b -> vle a b.
Proof. intros (H1 & H2 & H3). repeat split; now apply Qlt_le_weak. Qed.

Lemma run_along_Y (n : nat) (y : Z) :
  run n (ivec 0 2 0) (ivec 0 y 0) =
  map (fun i => ivec 0 (y + 2 * Z.of_nat i) 0) (seq 0 n).
Proof.
  revert y. induction n as [| n IH]; intros y; [reflexivity |].
  cbn [run seq map]. rewrite vadd_ivec, IH, <- seq_shift, map_map.
  f_equal.
  - f_equal. cbn. lia.
  - apply map_ext. intros i. f_equal; lia.
Qed.

Lemma walk_split (pre : list Z) (L : Z) (post : list Z) (w : World) :
  exists s1 w1 s2 w2 s3 w3,
    walk_from walk_init pre w = (Ok s1, w1) /\
    segment s1 L w1 = (Ok s2, w2) /\
    walk_from s2 post w2 = (Ok s3, w3) /\
    walk_from walk_init (pre ++ L :: post) w = (Ok s3, w3) /\
    walk_inv s1 /\ walk_inv s2 /\ walk_inv s3 /\
    direction s2 <> direction s1 /\
    blocks s2 = blocks s1 ++ run (Z.to_nat L) (step_vector s1) (center s1) /\
    exists tail, blocks s3 = blocks s2 ++ tail.
Proof.
  destruct (walk_from_spec pre walk_init w walk_init_inv)
    as (s1 & w1 & _ & E1 & _ & I1 & _).
  destruct (segment_spec s1 L w1 I1) as (s2 & w2 & E2 & _ & I2 & Hne & B2 & _).
  destruct (walk_from_spec post s2 w2 I2) as (s3 & w3 & runs & E3 & _ & I3 & B3 & _).
  exists s1, w1, s2, w2, s3, w3.
  repeat (split; [assumption |]).
  split.
  - rewrite walk_from_app. unfold bind. rewrite E1. cbn [walk_from].
    unfold bind. now rewrite E2.
  - repeat (split; [assumption |]). now exists (List.concat runs).
Qed.



(** C6: the walk never reaches the failing default branch, the direction is
    one of 1, 2, 4 before and after every segment, and the direction a
    segment boundary chooses differs from the one the segment used. *)
Theorem direction_one_hot_and_turns (pre : list Z) (L : Z) (post : list Z) (w : World) :
  exists s1 w1 s2 w2 s3 w3,
    walk_from walk_init pre w = (Ok s1, w1) /\
    segment s1 L w1 = (Ok s2, w2) /\
    walk_from s2 post w2 = (Ok s3, w3) /\
    walk_from walk_init (pre ++ L :: post) w = (Ok s3, w3) /\
    axis_ok (direction walk_init) /\
    axis_ok (direction s1) /\ axis_ok (direction s2) /\ axis_ok (direction s3) /\
    direction s2 <> direction s1.
Proof.
  destruct (walk_split pre L post w)
    as (s1 & w1 & s2 & w2 & s3 & w3 & E1 & E2 & E3 & E & I1 & I2 & I3 & Hne & _).
  exists s1, w1, s2, w2, s3, w3.
  repeat (split; [assumption |]).
  pose proof walk_init_inv as I0.
  destruct I0, I1, I2, I3. repeat (split; [assumption |]). assumption.
Qed.

(** C10: every cube center has three even integer coordinates; when at least
    one cube is placed the first center is the origin and the bounding box
    contains the cube from (-1,-1,-1) to (1,1,1). *)
Theorem centers_even_box_contains_unit_cube (segments : list Z) (w : World) :
  exists centers shape w',
    walk segments w = (Ok centers, w') /\
    initializeShape segments w = (Ok shape, w') /\
    Forall even_vec centers /\
    (centers <> [] ->
     hd_error centers = Some origin /\
     vle (bbmin (boundingBox shape)) (ivec (-1) (-1) (-1)) /\
     vle (ivec 1 1 1) (bbmax (boundingBox shape))).
Proof.
  destruct (initializeShape_spec segments w)
    as (blocks & runs & w' & Ew & Ei & _ & He & Hh & _).
  exists blocks, (make_shape blocks), w'.
  repeat (split; [assumption |]).
  intros Hne. destruct blocks as [| b bl]; [congruence |].
  cbn in Hh. subst b. split; [reflexivity |].
  apply bounding_box_contains_first.
Qed.

(** C4 as stated fails: the walk starts with direction 2, whose vector is
    (0,1,0), not the Z pattern 1; under draws that are all 0 the two cubes of
    the segment list [2] are at (0,0,0) and (0,2,0), so the second one is not
    at (0,0,2). *)
Lemma first_segment_not_along_Z :
  direction walk_init <> 1 /\
  direction_vector (direction walk_init) <> ivec 0 0 1 /\
  fst (walk [2] all_zeros) = Ok [origin; ivec 0 2 0] /\
  fst (walk [2] all_zeros) <> Ok [origin; ivec 0 0 2].
Proof.
  split; [discriminate |].
  split; [vm_compute; discriminate |].
  split; [reflexivity |].
  vm_compute. discriminate.
Qed.

(** C4, amended: the walk starts with its center at the origin, direction 2
    (the Y axis: bit 1) and side +1, so the cubes of a first segment of at
    most 2^24 cubes (the range in which adding 2 in single precision is
    exact) are at (0,0,0), (0,2,0), (0,4,0), ...: they advance along the Y
    axis in the positive direction, and their coordinates are binary32
    values. *)
Theorem first_segment_along_Y (L : Z) (rest : list Z) (w : World) :
  L <= 2 ^ 24 ->
  center walk_init = origin /\ direction walk_init = 2 /\ side walk_init = 1%Q /\
  direction_vector (direction walk_init) = ivec 0 1 0 /\
  step_vector walk_init = ivec 0 2 0 /\
  exists centers w',
    walk (L :: rest) w = (Ok centers, w') /\
    firstn (Z.to_nat L) centers =
      map (fun i => ivec 0 (2 * Z.of_nat i) 0) (seq 0 (Z.to_nat L)) /\
    Forall vec_exact (firstn (Z.to_nat L) centers).
Proof.
  intros Hbound.
  repeat (split; [reflexivity |]).
  destruct (walk_split [] L rest w)
    as (s1 & w1 & s2 & w2 & s3 & w3 & E1 & _ & _ & E & _ & _ & _ & _ & B2 & tail & B3).
  cbn in E1. injection E1 as <- <-.
  assert (Hfirst : firstn (Z.to_nat L) (blocks s3) =
                   map (fun i => ivec 0 (2 * Z.of_nat i) 0) (seq 0 (Z.to_nat L))).
  { rewrite B3, B2. cbn [blocks walk_init app].
    change (step_vector walk_init) with (ivec 0 2 0).
    change (center walk_init) with (ivec 0 0 0).
    rewrite firstn_app, run_length, Nat.sub_diag, firstn_O, app_nil_r.
    rewrite firstn_all2 by (rewrite run_length; apply Nat.le_refl).
    rewrite run_along_Y. apply map_ext. intros i. reflexivity. }
  exists (blocks s3), w3. split; [| split].
  - unfold walk, bind, ret. cbn [app] in E. now rewrite E.
  - exact Hfirst.
  - rewrite Hfirst. apply Forall_forall. intros c Hc.
    apply in_map_iff in Hc. destruct Hc as (i & <- & Hi).
    apply in_seq in Hi.
    unfold vec_exact. cbn [ivec vx vy vz].
    split; [apply (exact32_int 0); lia |].
    split; [apply exact32_even; lia | apply (exact32_int 0); lia].
Qed.

Lemma first_segment_along_Y_witness :
  center walk_init = origin /\ direction walk_init = 2 /\ side walk_init = 1%Q /\
  direction_vector (direction walk_init) = ivec 0 1 0 /\
  step_vector walk_init = ivec 0 2 0 /\
  exists centers w',
    walk (3 :: [3; 2; 3]) alternating = (Ok centers, w') /\
    firstn (Z.to_nat 3) centers =
      map (fun i => ivec 0 (2 * Z.of_nat i) 0) (seq 0 (Z.to_nat 3)) /\
    Forall vec_exact (firstn (Z.to_nat 3) centers).
Proof.
  apply (first_segment_along_Y 3 [3; 2; 3] alternating).
  discriminate.
Defined.

(** C2 as stated fails: the segment list [0] is non-empty with entries >= 0,
    places no cube and emits no vertex, so the box keeps its initial values,
    min = FLT_MAX and max = FLT_MIN, and min <= max does not hold. *)
Lemma empty_walk_box_inverted :
  exists shape,
    [0] <> [] /\ Forall (fun L => 0 <= L) [0] /\
    fst (initializeShape [0] all_zeros) = Ok shape /\
    vertexData (mesh shape) = [] /\
    bbmin (boundingBox shape) = vec3_splat FLT_MAX /\
    bbmax (boundingBox shape) = vec3_splat FLT_MIN /\
    ~ vle (bbmin (boundingBox shape)) (bbmax (boundingBox shape)).
Proof.
  eexists. split; [discriminate |].
  split; [repeat constructor; discriminate |].
  split; [reflexivity |].
  split; [reflexivity |]. split; [reflexivity |]. split; [reflexivity |].
  intros (H & _). vm_compute in H. apply H. reflexivity.
Qed.

(** C2, amended: for every shape generated from a segment list with at least
    one entry >= 1 (so that at least one cube is placed), the bounding box
    satisfies min <= max component-wise, and strictly so in every component:
    min = max does not occur. *)
Theorem bounding_box_min_below_max (segments : list Z) (w : World) :
  (exists L, In L segments /\ 1 <= L) ->
  exists shape w',
    initializeShape segments w = (Ok shape, w') /\
    vle (bbmin (boundingBox shape)) (bbmax (boundingBox shape)) /\
    vlt (bbmin (boundingBox shape)) (bbmax (boundingBox shape)).
Proof.
  intros Hsome.
  destruct (initializeShape_spec segments w)
    as (centers & runs & w' & _ & Ei & _ & _ & Hh & B & R).
  exists (make_shape centers), w'. split; [exact Ei |].
  assert (Hn : (0 < List.length centers)%nat).
  { rewrite B, (segment_runs_length _ _ R). now apply cubes_positive. }
  destruct centers as [| b bl]; [cbn in Hn; lia |].
  cbn in Hh. subst b.
  destruct (bounding_box_contains_first bl) as [Hmin Hmax].
  assert (Hlt := box_strict _ _ Hmin Hmax).
  split; [now apply vlt_vle | exact Hlt].
Qed.

Lemma bounding_box_min_below_max_witness :
  exists shape w',
    initializeShape [3; 3; 2; 3] alternating = (Ok shape, w') /\
    vle (bbmin (boundingBox shape)) (bbmax (boundingBox shape)) /\
    vlt (bbmin (boundingBox shape)) (bbmax (boundingBox shape)).
Proof.
  apply (bounding_box_min_below_max [3; 3; 2; 3] alternating).
  exists 3. split; [left; reflexivity | discriminate].
Defined.

(** ** Integer conversions in the layout *)

Lemma size_t_of_small (z : Z) : 0 <= z < 2 ^ 64 -> size_t_of z = z.
Proof. intros H. unfold size_t_of. now apply Z.mod_small. Qed.

Lemma int_of_small (z : Z) : - 2 ^ 31 <= z < 2 ^ 31 -> int_of z = z.
Proof. intros H. unfold int_of. rewrite Z.mod_small; lia. Qed.

Lemma rows_eq (n : Z) :
  0 <= n -> n + 2 < 2 ^ 64 ->
  size_t_of (size_t_of (n + size_t_of Columns) - 1) / size_t_of Columns = spec_rows n.
Proof.
  intros H0 H1. change (size_t_of Columns) with 3.
  unfold size_t_of, spec_rows. rewrite Zminus_mod_idemp_l.
  rewrite Z.mod_small by lia. reflexivity.
Qed.

Lemma rows_ceiling (n : Z) : 3 * (spec_rows n - 1) < n <= 3 * spec_rows n.
Proof.
  unfold spec_rows.
  pose proof (Z.div_mod (n + 3 - 1) 3 ltac:(lia)).
  pose proof (Z.mod_pos_bound (n + 3 - 1) 3 ltac:(lia)). lia.
Qed.

Lemma tile_viewport (W H n i : Z) :
  0 <= W < 2 ^ 31 -> 0 <= H < 2 ^ 31 -> 0 <= i < n ->
  let vw := Z.quot W Columns in
  let vh := size_t_of H / spec_rows n in
  (int_of (size_t_of ((i mod size_t_of Columns) * size_t_of vw)),
   int_of (size_t_of ((i / size_t_of Columns) * vh)), vw, int_of vh)
  = spec_viewport W H n i.
Proof.
  intros HW HH Hi vw vh. change (size_t_of Columns) with 3.
  assert (Evw : vw = W / 3).
  { unfold vw, Columns. apply Z.quot_div_nonneg; lia. }
  assert (Evh : vh = H / spec_rows n).
  { unfold vh. rewrite size_t_of_small by lia. reflexivity. }
  unfold spec_viewport, spec_cell. cbn [fst snd].
  set (rows := spec_rows n) in *.
  pose proof (rows_ceiling n) as Hr. fold rows in Hr.
  assert (Hrows : 0 < rows) by lia.
  assert (Bw : 0 <= W / 3 <= W).
  { split; [apply Z.div_pos; lia | apply Z.div_le_upper_bound; lia]. }
  assert (Bh : 0 <= H / rows <= H).
  { split; [apply Z.div_pos; lia | apply Z.div_le_upper_bound; nia]. }
  assert (Bm : 0 <= i mod 3 < 3) by (apply Z.mod_pos_bound; lia).
  assert (Bd : 0 <= i / 3 < rows).
  { split; [apply Z.div_pos; lia | apply Z.div_lt_upper_bound; lia]. }
  assert (Bx : 0 <= (i mod 3) * (W / 3) < 2 ^ 31).
  { pose proof (Z.mul_div_le W 3 ltac:(lia)). nia. }
  assert (By : 0 <= (i / 3) * (H / rows) < 2 ^ 31).
  { pose proof (Z.mul_div_le H rows ltac:(lia)). nia. }
  rewrite Evw, Evh.
  rewrite (size_t_of_small (W / 3)) by lia.
  rewrite !size_t_of_small by lia.
  rewrite !int_of_small by lia. reflexivity.
Qed.

(** ** Call sequences *)

Lemma emit_emit (w : World) (a b : list GLCall) : emit (emit w a) b = emit w (a ++ b).
Proof. unfold emit; cbn. now rewrite app_assoc. Qed.

Lemma emit_nil (w : World) : emit w [] = w.
Proof. destruct w. unfold emit; cbn. now rewrite app_nil_r. Qed.

Lemma call_emit (c : GLCall) (w : World) : call c w = (Ok tt, emit w [c]).
Proof. reflexivity. Qed.

Lemma emitted_emit {A : Type} (m : M A) (w : World) (r : Result A) (tr : list GLCall) :
  m w = (r, emit w tr) -> emitted m w = tr.
Proof.
  intros E. unfold emitted. rewrite E. cbn.
  rewrite skipn_app, Nat.sub_diag, skipn_all. reflexivity.
Qed.

Lemma indices_cons (i : Z) (n : nat) : indices i (S n) = i :: indices (i + 1) n.
Proof.
  unfold indices. cbn [seq map]. rewrite <- seq_shift, map_map. f_equal.
  - lia.
  - apply map_ext. intros k. lia.
Qed.

Lemma indices_bound (i : Z) (n : nat) :
  Forall (fun k => i <= k < i + Z.of_nat n) (indices i n).
Proof.
  unfold indices. apply Forall_forall. intros k Hk.
  apply in_map_iff in Hk. destruct Hk as (j & <- & Hj).
  apply in_seq in Hj. lia.
Qed.

(** ** Rendering *)

Lemma render_shapes_pure (d : Demo) (vw vh : Z) (shapes : list Shape) :
  forall i : Z,
  exists tr,
    (forall w, render_shapes d vw vh i shapes w = (Ok tt, emit w tr)) /\
    viewports tr =
      map (fun k => (int_of (size_t_of ((k mod size_t_of Columns) * size_t_of vw)),
                     int_of (size_t_of ((k / size_t_of Columns) * vh)),
                     vw, int_of vh))
          (indices i (List.length shapes)) /\
    uniforms tr =
      map (fun shape =>
             ("mvp"%string,
              MMul (MMul (MPerspective (FRadians 45) (FDiv vw vh) (FLit (1 # 10)) (FLit 100))
                         view_matrix)
                   (model_matrix (m_curTime d) shape)))
          shapes /\
    mesh_renders tr = map (fun shape => (mesh shape, GL_TRIANGLES)) shapes.
Proof.
  induction shapes as [| shape rest IH]; intros i.
  - exists []. split; [| repeat split].
    intros w. cbn. now rewrite emit_nil.
  - destruct (IH (i + 1)) as (tr & Hrun & Hv & Hu & Hm).
    eexists (_ :: _ :: _ :: tr). split; [| split; [| split]].
    + intros w. cbn [render_shapes]. unfold bind.
      rewrite !call_emit. rewrite Hrun, !emit_emit. cbn [app]. reflexivity.
    + cbn [viewports flat_map app List.length]. rewrite indices_cons. cbn [map].
      f_equal. exact Hv.
    + cbn [uniforms flat_map app map]. f_equal. exact Hu.
    + cbn [mesh_renders flat_map app map]. f_equal. exact Hm.
Qed.

(** The outcome and the calls of [render] depend on the [Demo] alone; the
    uniforms among the calls are none when it fails and one per shape when it
    succeeds. *)
Lemma render_pure (d : Demo) :
  exists r tr projection,
    (forall w, render d w = (r, emit w tr)) /\
    (uniforms tr = [] \/
     uniforms tr =
       map (fun shape =>
              ("mvp"%string,
               MMul (MMul projection view_matrix) (model_matrix (m_curTime d) shape)))
           (m_shapes d)).
Proof.
  unfold render.
  destruct (m_shapeProgram d) as [p |].
  - set (rows := size_t_of _ / size_t_of Columns).
    destruct (rows =? 0) eqn:Erows.
    + exists (Crash DivisionByZero), prelude, MIdentity. split; [| now left].
      intros w.
      unfold bind. rewrite !call_emit, !emit_emit. unfold crash. reflexivity.
    + destruct (render_shapes_pure d (Z.quot (m_canvasWidth d) Columns)
                  (size_t_of (m_canvasHeight d) / rows) (m_shapes d) 0)
        as (tr & Hrun & _ & Hu & _).
      exists (Ok tt), (prelude ++ tr). eexists. split.
      * intros w.
        unfold bind. rewrite !call_emit, !emit_emit, Hrun, emit_emit. reflexivity.
      * right. unfold uniforms in *. rewrite flat_map_app. cbn [prelude flat_map app].
        exact Hu.
  - eexists (Crash NullPointer), _, MIdentity. split.
    + intros w.
      unfold bind. rewrite !call_emit, !emit_emit. unfold crash. reflexivity.
    + now left.
Qed.

Lemma render_ok (W H : Z) (p : ShaderProgram) (shapes : list Shape) (t : float) :
  shapes <> [] -> Z.of_nat (List.length shapes) + 2 < 2 ^ 64 ->
  exists tr,
    (forall w, render (mkDemo W H (Some p) shapes t) w = (Ok tt, emit w (prelude ++ tr))) /\
    viewports (prelude ++ tr) =
      map (fun k => (int_of (size_t_of ((k mod size_t_of Columns)
                                        * size_t_of (Z.quot W Columns))),
                     int_of (size_t_of ((k / size_t_of Columns)
                        * (size_t_of H / spec_rows (Z.of_nat (List.length shapes))))),
                     Z.quot W Columns,
                     int_of (size_t_of H / spec_rows (Z.of_nat (List.length shapes)))))
          (indices 0 (List.length shapes)) /\
    uniforms (prelude ++ tr) =
      map (fun shape =>
             ("mvp"%string,
              MMul (MMul (MPerspective (FRadians 45)
                            (FDiv (Z.quot W Columns)
                               (size_t_of H / spec_rows (Z.of_nat (List.length shapes))))
                            (FLit (1 # 10)) (FLit 100))
                         view_matrix)
                   (model_matrix t shape)))
          shapes /\
    mesh_renders (prelude ++ tr) = map (fun shape => (mesh shape, GL_TRIANGLES)) shapes.
Proof.
  intros Hne Hn.
  set (n := Z.of_nat (List.length shapes)) in *.
  assert (Hpos : 0 < n).
  { destruct shapes; [congruence | unfold n; cbn [List.length]; lia]. }
  pose proof (rows_ceiling n) as Hr.
  destruct (render_shapes_pure (mkDemo W H (Some p) shapes t) (Z.quot W Columns)
              (size_t_of H / spec_rows n) shapes 0) as (tr & Hrun & Hv & Hu & Hm).
  exists tr. split; [| split; [| split]].
  - intros w. unfold render.
    cbn [m_shapeProgram m_shapes m_canvasWidth m_canvasHeight].
    fold n. rewrite rows_eq by lia.
    destruct (spec_rows n =? 0) eqn:E; [apply Z.eqb_eq in E; lia |].
    unfold bind. rewrite !call_emit, !emit_emit, Hrun, emit_emit. reflexivity.
  - unfold viewports in *. rewrite flat_map_app. exact Hv.
  - unfold uniforms in *. rewrite flat_map_app. exact Hu.
  - unfold mesh_renders in *. rewrite flat_map_app. exact Hm.
Qed.

Lemma render_empty (W H : Z) (p : ShaderProgram) (t : float) (w : World) :
  render (mkDemo W H (Some p) [] t) w = (Crash DivisionByZero, emit w prelude).
Proof.
  unfold render. cbn [m_shapeProgram m_shapes List.length].
  change (size_t_of (size_t_of (Z.of_nat 0 + size_t_of Columns) - 1)
          / size_t_of Columns =? 0) with true.
  unfold bind. rewrite !call_emit, !emit_emit. unfold crash. reflexivity.
Qed.

(** ** Initialization *)

Lemma push_shapes_spec (n : nat) (segments : list Z) :
  forall (d : Demo) (w : World),
  exists added w',
    push_shapes n segments d w = (Ok (set_shapes d (m_shapes d ++ added)), w') /\
    quiet w w' /\ List.length added = n.
Proof.
  induction n as [| n IH]; intros d w.
  - exists [], w. cbn. rewrite app_nil_r. destruct d. repeat split; reflexivity.
  - destruct (initializeShape_spec segments w)
      as (centers & runs & w1 & _ & Ei & [Q1 Q1'] & _).
    destruct (IH (set_shapes d (m_shapes d ++ [make_shape centers])) w1)
      as (added & w2 & E2 & [Q2 Q2'] & Hl).
    exists (make_shape centers :: added), w2.
    cbn [push_shapes]. unfold bind. rewrite Ei, E2.
    split; [| split; [split; congruence | cbn; now rewrite Hl]].
    unfold set_shapes; cbn. now rewrite <- app_assoc.
Qed.

Lemma initialize_addShader_failure (fresh : ShaderProgram) (d : Demo) (w : World) :
  addShader fresh GL_VERTEX_SHADER "shaders/shape.vert" = false \/
  addShader fresh GL_FRAGMENT_SHADER "shaders/shape.frag" = false ->
  exists msg,
    initialize fresh d w =
      (Ok (false, set_shapeProgram d fresh),
       mkWorld (generator w) (stderr w ++ [msg]) (gl w)).
Proof.
  intros Hfail. unfold initialize, initializeProgram.
  destruct (addShader fresh GL_VERTEX_SHADER "shaders/shape.vert") eqn:Ev; cbn [negb].
  - destruct Hfail as [Hv | Hf]; [discriminate |]. rewrite Hf. cbn [negb].
    eexists. reflexivity.
  - eexists. reflexivity.
Qed.

(** C1, on the code: when both [addShader] calls succeed and [link] fails,
    [initialize] writes the link diagnostic to stderr and then goes on: it
    returns true with six generated shapes in the collection. *)
Theorem initialize_goes_on_after_link_failure
    (diagnostic : string) (W H : Z) (w : World) :
  exists d' w',
    initialize (mkShaderProgram (fun _ _ => true) false diagnostic) (Demo_new W H) w
      = (Ok (true, d'), w') /\
    List.length (m_shapes d') = 6%nat /\
    stderr w' = stderr w ++ [("Failed to link shader: " ++ diagnostic ++ newline)%string].
Proof.
  set (fresh := mkShaderProgram (fun _ _ => true) false diagnostic).
  set (w1 := mkWorld (generator w)
               (stderr w ++ [("Failed to link shader: " ++ diagnostic ++ newline)%string])
               (gl w)).
  destruct (push_shapes_spec 6 [3; 3; 2; 3] (set_shapeProgram (Demo_new W H) fresh) w1)
    as (added & w2 & E & [Q _] & Hl).
  eexists; exists w2. split; [| split].
  - assert (Ep : initializeProgram fresh "shaders/shape.vert" "shaders/shape.frag" w
                 = (Ok true, w1)) by reflexivity.
    unfold initialize, bind. rewrite Ep. cbn [negb]. rewrite E. reflexivity.
  - cbn. exact Hl.
  - exact Q.
Qed.

(** C3, on the code: with a program bound and no shapes, [render] clears the
    buffers and issues no draw call, but the row count is 0 and the
    computation of the viewport height divides by it; a [Demo] whose
    [initialize] failed on the vertex shader is in that state. *)
Theorem render_no_shapes_divides_by_zero
    (W H : Z) (p : ShaderProgram) (t : float) (w : World) :
  render (mkDemo W H (Some p) [] t) w = (Crash DivisionByZero, emit w prelude) /\
  In (glClear [GL_COLOR_BUFFER_BIT; GL_DEPTH_BUFFER_BIT]) prelude /\
  mesh_renders prelude = [] /\
  size_t_of (size_t_of (Z.of_nat (@List.length Shape []) + size_t_of Columns) - 1)
    / size_t_of Columns = 0 /\
  (forall fresh : ShaderProgram,
      addShader fresh GL_VERTEX_SHADER "shaders/shape.vert" = false ->
      exists d' w',
        initialize fresh (Demo_new W H) w = (Ok (false, d'), w') /\
        m_shapes d' = [] /\
        fst (render d' w') = Crash DivisionByZero).
Proof.
  split; [apply render_empty |].
  split; [right; left; reflexivity |].
  split; [reflexivity |].
  split; [reflexivity |].
  intros fresh Hfail.
  destruct (initialize_addShader_failure fresh (Demo_new W H) w (or_introl Hfail))
    as (msg & E).
  eexists; eexists. split; [exact E |]. split; [reflexivity |].
  unfold set_shapeProgram, Demo_new. cbn [m_canvasWidth m_canvasHeight m_shapes m_curTime].
  now rewrite render_empty.
Qed.

(** C8: with canvas dimensions that are non-negative [int]s and at least one
    shape, [render] succeeds and the viewport of shape [i] is the cell
    (i mod 3, i div 3) of a grid of 3 columns and ceil(n / 3) rows, of width
    W / 3 and height H / rows; for six shapes the rows are 2 and the cells
    are (0,0), (1,0), (2,0), (0,1), (1,1), (2,1). *)
Theorem viewport_layout
    (W H : Z) (p : ShaderProgram) (shapes : list Shape) (t : float) (w : World) :
  0 <= W < 2 ^ 31 -> 0 <= H < 2 ^ 31 ->
  shapes <> [] -> Z.of_nat (List.length shapes) + 2 < 2 ^ 64 ->
  fst (render (mkDemo W H (Some p) shapes t) w) = Ok tt /\
  3 * (spec_rows (Z.of_nat (List.length shapes)) - 1)
    < Z.of_nat (List.length shapes)
    <= 3 * spec_rows (Z.of_nat (List.length shapes)) /\
  viewports (emitted (render (mkDemo W H (Some p) shapes t)) w) =
    map (spec_viewport W H (Z.of_nat (List.length shapes)))
        (indices 0 (List.length shapes)) /\
  (List.length shapes = 6%nat ->
   spec_rows (Z.of_nat (List.length shapes)) = 2 /\
   viewports (emitted (render (mkDemo W H (Some p) shapes t)) w) =
     map (fun cell => (fst cell * (W / 3), snd cell * (H / 2), W / 3, H / 2))
         [(0, 0); (1, 0); (2, 0); (0, 1); (1, 1); (2, 1)]).
Proof.
  intros HW HH Hne Hn.
  destruct (render_ok W H p shapes t Hne Hn) as (tr & Hrun & Hv & _).
  assert (Hview : viewports (emitted (render (mkDemo W H (Some p) shapes t)) w) =
                  map (spec_viewport W H (Z.of_nat (List.length shapes)))
                      (indices 0 (List.length shapes))).
  { rewrite (emitted_emit _ _ _ _ (Hrun w)), Hv.
    apply map_ext_in. intros i Hi.
    pose proof (indices_bound 0 (List.length shapes)) as Hb.
    rewrite Forall_forall in Hb. specialize (Hb i Hi).
    apply (tile_viewport W H (Z.of_nat (List.length shapes)) i); lia. }
  split; [now rewrite Hrun |].
  split; [apply rows_ceiling |].
  split; [exact Hview |].
  intros H6. rewrite Hview, H6. split; reflexivity.
Qed.

Lemma viewport_layout_witness :
  fst (render (mkDemo 640 480 (Some (mkShaderProgram (fun _ _ => true) true ""))
                 (repeat (make_shape [origin]) 6) 0) all_zeros) = Ok tt /\
  3 * (spec_rows (Z.of_nat (List.length (repeat (make_shape [origin]) 6))) - 1)
    < Z.of_nat (List.length (repeat (make_shape [origin]) 6))
    <= 3 * spec_rows (Z.of_nat (List.length (repeat (make_shape [origin]) 6))) /\
  viewports (emitted (render (mkDemo 640 480
                                (Some (mkShaderProgram (fun _ _ => true) true ""))
                                (repeat (make_shape [origin]) 6) 0)) all_zeros) =
    map (spec_viewport 640 480 (Z.of_nat (List.length (repeat (make_shape [origin]) 6))))
        (indices 0 (List.length (repeat (make_shape [origin]) 6))) /\
  (List.length (repeat (make_shape [origin]) 6) = 6%nat ->
   spec_rows (Z.of_nat (List.length (repeat (make_shape [origin]) 6))) = 2 /\
   viewports (emitted (render (mkDemo 640 480
                                 (Some (mkShaderProgram (fun _ _ => true) true ""))
                                 (repeat (make_shape [origin]) 6) 0)) all_zeros) =
     map (fun cell => (fst cell * (640 / 3), snd cell * (480 / 2), 640 / 3, 480 / 2))
         [(0, 0); (1, 0); (2, 0); (0, 1); (1, 1); (2, 1)]).
Proof.
  apply (viewport_layout 640 480 (mkShaderProgram (fun _ _ => true) true "")
           (repeat (make_shape [origin]) 6) 0 all_zeros).
  - split; [discriminate | reflexivity].
  - split; [discriminate | reflexivity].
  - discriminate.
  - reflexivity.
Defined.

(** C9: in every frame the uniform set for each shape is
    projection * view * model, where model is the rotation by -1.5 * time about
    normalize(1,1,1) times the translation by minus the center of the shape's
    bounding box, and view is the lookAt from (0,0,-18) to the origin with up
    (0,1,0), the same for every shape and every time. *)
Theorem mvp_is_projection_view_model
    (W H : Z) (p : ShaderProgram) (shapes : list Shape) (t : float) (w : World) :
  Z.of_nat (List.length shapes) + 2 < 2 ^ 64 ->
  (shapes <> [] -> fst (render (mkDemo W H (Some p) shapes t) w) = Ok tt) /\
  exists projection,
    uniforms (emitted (render (mkDemo W H (Some p) shapes t)) w) =
      map (fun shape =>
             ("mvp"%string,
              MMul (MMul projection spec_view) (spec_model t (boundingBox shape))))
          shapes.
Proof.
  intros Hn. destruct shapes as [| shape rest].
  - split; [congruence |]. exists MIdentity.
    now rewrite (emitted_emit _ _ _ _ (render_empty W H p t w)).
  - assert (Hne : shape :: rest <> []) by discriminate.
    destruct (render_ok W H p (shape :: rest) t Hne Hn) as (tr & Hrun & _ & Hu & _).
    split; [intros _; now rewrite Hrun |].
    eexists. rewrite (emitted_emit _ _ _ _ (Hrun w)). exact Hu.
Qed.

Lemma mvp_is_projection_view_model_witness :
  (repeat (make_shape [origin]) 6 <> [] ->
   fst (render (mkDemo 640 480 (Some (mkShaderProgram (fun _ _ => true) true ""))
                  (repeat (make_shape [origin]) 6) (1 # 2)) all_zeros) = Ok tt) /\
  exists projection,
    uniforms (emitted (render (mkDemo 640 480
                                 (Some (mkShaderProgram (fun _ _ => true) true ""))
                                 (repeat (make_shape [origin]) 6) (1 # 2))) all_zeros) =
      map (fun shape =>
             ("mvp"%string,
              MMul (MMul projection spec_view) (spec_model (1 # 2) (boundingBox shape))))
          (repeat (make_shape [origin]) 6).
Proof.
  apply (mvp_is_projection_view_model 640 480 (mkShaderProgram (fun _ _ => true) true "")
           (repeat (make_shape [origin]) 6) (1 # 2) all_zeros).
  reflexivity.
Defined.

(** * Further properties of the code *)

(** ** The switch *)

Lemma turn_out_of_range (direction : Z) (w : World) :
  ~ axis_ok direction -> turn direction w = (Crash AssertionFailed, w).
Proof.
  unfold axis_ok. intros Hn.
  destruct direction as [| p | p]; try reflexivity.
  destruct p as [p | p |]; try reflexivity.
  - destruct p as [p | p |]; try reflexivity.
    + destruct p; reflexivity || (exfalso; apply Hn; auto).
    + exfalso. apply Hn. auto.
  - exfalso. apply Hn. auto.
Qed.

(** X1: [turn] on a direction outside 1, 2, 4 fails the assertion without
    drawing; on an axis it draws once, and each of the two other axes is the
    outcome of one of the two draw values. *)
Theorem turn_reaches_both_other_axes (direction : Z) :
  (~ axis_ok direction ->
   forall w, turn direction w = (Crash AssertionFailed, w)) /\
  (axis_ok direction ->
   forall other, axis_ok other -> other <> direction ->
   exists b : bool,
     forall w, generator w 0%nat = b ->
       turn direction w =
         (Ok other, mkWorld (fun n => generator w (S n)) (stderr w) (gl w))).
Proof.
  split.
  - intros Hn w. now apply turn_out_of_range.
  - unfold axis_ok.
    intros [-> | [-> | ->]] other [-> | [-> | ->]] Hne; try congruence;
      ((exists true; intros w Hw; cbn; rewrite Hw; reflexivity)
       || (exists false; intros w Hw; cbn; rewrite Hw; reflexivity)).
Qed.

(** ** initializeProgram *)

(** X2: [initializeProgram] returns true exactly when both [addShader] calls
    succeed, whatever [link] answers; it writes one line to stderr when one of
    the three steps fails and none otherwise, and it draws nothing from the
    generator. *)
Theorem initializeProgram_result
    (program : ShaderProgram) (vertexShader fragmentShader : string) (w : World) :
  exists lines,
    fst (initializeProgram program vertexShader fragmentShader w) =
      Ok (addShader program GL_VERTEX_SHADER vertexShader
          && addShader program GL_FRAGMENT_SHADER fragmentShader) /\
    stderr (snd (initializeProgram program vertexShader fragmentShader w))
      = stderr w ++ lines /\
    List.length lines =
      (if addShader program GL_VERTEX_SHADER vertexShader
          && addShader program GL_FRAGMENT_SHADER fragmentShader
          && link program
       then 0 else 1)%nat /\
    generator (snd (initializeProgram program vertexShader fragmentShader w))
      = generator w.
Proof.
  unfold initializeProgram.
  destruct (addShader program GL_VERTEX_SHADER vertexShader); cbn [negb andb].
  - destruct (addShader program GL_FRAGMENT_SHADER fragmentShader); cbn [negb andb].
    + destruct (link program); cbn [negb].
      * exists []. cbn. now rewrite app_nil_r.
      * eexists [_]. repeat split.
    + eexists [_]. repeat split.
  - eexists [_]. repeat split.
Qed.

(** ** The draws of the generator *)

Lemma segment_draws (s : WalkState) (L : Z) (w : World) :
  walk_inv s ->
  exists s',
    segment s L w =
      (Ok s', mkWorld (fun n => generator w (S (S n))) (stderr w) (gl w)) /\
    walk_inv s'.
Proof.
  intros Hs.
  destruct (segment_spec s L w Hs) as (s' & w' & E & _ & I & _).
  exists s'. split; [| exact I].
  rewrite E. f_equal.
  destruct Hs as [Ha _ _ _ _].
  unfold segment in E. rewrite place_spec in E.
  unfold bind, zero_or_one, ret in E.
  destruct Ha as [Hd | [Hd | Hd]]; rewrite Hd in E; cbn in E;
    injection E as _ <-; reflexivity.
Qed.

Lemma walk_from_draws (segments : list Z) :
  forall (s : WalkState) (w : World),
    walk_inv s ->
    exists s' w',
      walk_from s segments w = (Ok s', w') /\ quiet w w' /\
      forall n, generator w' n = generator w (2 * List.length segments + n)%nat.
Proof.
  induction segments as [| L rest IH]; intros s w Hs.
  - exists s, w. split; [reflexivity |]. split; [split; reflexivity |]. reflexivity.
  - destruct (segment_draws s L w Hs) as (s1 & E1 & I1).
    destruct (IH s1 (mkWorld (fun n => generator w (S (S n))) (stderr w) (gl w)) I1)
      as (s2 & w2 & E2 & [Q2 Q2'] & G2).
    exists s2, w2. cbn [walk_from]. unfold bind. rewrite E1, E2.
    split; [reflexivity |]. split; [split; assumption |].
    intros n. rewrite G2. cbn [generator List.length]. f_equal. lia.
Qed.

(** X3: generating a shape draws exactly twice per segment, whatever the
    lengths: afterwards the generator is the old one without its first
    2 * |segments| draws. *)
Theorem initializeShape_draws (segments : list Z) (w : World) :
  exists shape w',
    initializeShape segments w = (Ok shape, w') /\
    forall n, generator w' n = generator w (2 * List.length segments + n)%nat.
Proof.
  destruct (walk_from_draws segments walk_init w walk_init_inv)
    as (s & w' & E & _ & G).
  exists (make_shape (blocks s)), w'.
  unfold initializeShape, walk, bind, ret. rewrite E.
  split; [reflexivity | exact G].
Qed.

Lemma segment_agree (s : WalkState) (L : Z) (w1 w2 : World) :
  walk_inv s ->
  generator w1 0%nat = generator w2 0%nat ->
  generator w1 1%nat = generator w2 1%nat ->
  fst (segment s L w1) = fst (segment s L w2).
Proof.
  intros [Ha _ _ _ _] H0 H1.
  unfold segment. rewrite place_spec. unfold bind, zero_or_one, ret.
  destruct Ha as [Hd | [Hd | Hd]]; rewrite Hd; cbn; now rewrite H0, H1.
Qed.

Lemma walk_from_agree (segments : list Z) :
  forall (s : WalkState) (w1 w2 : World),
    walk_inv s ->
    agree (2 * List.length segments) w1 w2 ->
    fst (walk_from s segments w1) = fst (walk_from s segments w2).
Proof.
  induction segments as [| L rest IH]; intros s w1 w2 Hs Hag; [reflexivity |].
  destruct (segment_draws s L w1 Hs) as (s1 & E1 & I1).
  destruct (segment_draws s L w2 Hs) as (s2 & E2 & _).
  assert (Es : s1 = s2).
  { assert (H := segment_agree s L w1 w2 Hs
                   (Hag 0%nat ltac:(cbn [List.length]; lia))
                   (Hag 1%nat ltac:(cbn [List.length]; lia))).
    rewrite E1, E2 in H. now injection H. }
  subst s2. cbn [walk_from]. unfold bind. rewrite E1, E2.
  apply IH; [exact I1 |].
  intros n Hn. cbn [generator]. apply Hag. cbn [List.length]. lia.
Qed.

(** X4: the generated shape depends on the first 2 * |segments| draws only:
    two generators that agree on them give the same shape. *)
Theorem initializeShape_reads_prefix (segments : list Z) (w1 w2 : World) :
  agree (2 * List.length segments) w1 w2 ->
  fst (initializeShape segments w1) = fst (initializeShape segments w2).
Proof.
  intros Hag.
  pose proof (walk_from_agree segments walk_init w1 w2 walk_init_inv Hag) as H.
  unfold initializeShape, walk, bind, ret.
  destruct (walk_from walk_init segments w1) as [[s1 | e1] w1'];
    destruct (walk_from walk_init segments w2) as [[s2 | e2] w2'];
    cbn in H; try discriminate; injection H as <-; reflexivity.
Qed.

Lemma initializeShape_reads_prefix_witness :
  fst (initializeShape [3; 3; 2; 3] all_zeros)
  = fst (initializeShape [3; 3; 2; 3] zeros_then_ones).
Proof.
  apply (initializeShape_reads_prefix [3; 3; 2; 3] all_zeros zeros_then_ones).
  intros n Hn. cbn [generator all_zeros zeros_then_ones].
  symmetry. apply Nat.leb_gt. exact Hn.
Defined.

(** ** Lengths that place no cube *)

Lemma segment_nonpositive (s : WalkState) (L : Z) (w : World) :
  L <= 0 -> segment s L w = segment s 0 w.
Proof.
  intros HL. unfold segment.
  replace (Z.to_nat L) with (Z.to_nat 0) by (destruct L; cbn; lia || reflexivity).
  reflexivity.
Qed.

(** X5: a negative length behaves as 0: the segment places no cube, and the
    walk still turns and draws twice. *)
Theorem negative_length_is_zero (pre : list Z) (L : Z) (post : list Z) (w : World) :
  L <= 0 ->
  initializeShape (pre ++ L :: post) w = initializeShape (pre ++ 0 :: post) w.
Proof.
  intros HL.
  assert (E : walk_from walk_init (pre ++ L :: post) w
              = walk_from walk_init (pre ++ 0 :: post) w).
  { rewrite !walk_from_app. unfold bind.
    destruct (walk_from walk_init pre w) as [[s1 | e] w1]; [| reflexivity].
    cbn [walk_from]. unfold bind.
    now rewrite (segment_nonpositive s1 L w1 HL). }
  unfold initializeShape, walk, bind. now rewrite E.
Qed.

Lemma negative_length_is_zero_witness :
  initializeShape ([3] ++ (-2) :: [2]) alternating
  = initializeShape ([3] ++ 0 :: [2]) alternating.
Proof.
  apply (negative_length_is_zero [3] (-2) [2] alternating).
  discriminate.
Defined.

Lemma cubes_zero (segments : list Z) :
  cubes segments = 0%nat <-> Forall (fun L => L <= 0) segments.
Proof.
  unfold cubes. induction segments as [| L rest IH]; cbn [fold_right].
  - split; [constructor | reflexivity].
  - split.
    + intros H. constructor; [lia | apply IH; lia].
    + intros H. inversion H as [| ? ? HL Hrest]; subst.
      apply IH in Hrest. lia.
Qed.

(** X6: the mesh is empty exactly when no entry of the segment list is
    positive (the empty list included); the bounding box is then the pair of
    initial values, min = FLT_MAX and max = FLT_MIN. *)
Theorem empty_mesh_iff_no_positive_length (segments : list Z) (w : World) :
  exists shape w',
    initializeShape segments w = (Ok shape, w') /\
    (vertexData (mesh shape) = [] <-> Forall (fun L => L <= 0) segments) /\
    (vertexCount (mesh shape) = 0%nat <-> Forall (fun L => L <= 0) segments) /\
    (Forall (fun L => L <= 0) segments ->
     boundingBox shape = mkBoundingBox (vec3_splat FLT_MAX) (vec3_splat FLT_MIN)).
Proof.
  destruct (initializeShape_spec segments w)
    as (centers & runs & w' & _ & Ei & _ & _ & _ & B & R).
  exists (make_shape centers), w'. split; [exact Ei |].
  assert (Hlen : List.length centers = cubes segments).
  { rewrite B. now apply segment_runs_length. }
  assert (Hv : List.length (build_vertices centers) = 0%nat
               <-> Forall (fun L => L <= 0) segments).
  { rewrite build_vertices_length, Hlen, <- cubes_zero. lia. }
  cbn [make_shape mesh boundingBox make_mesh vertexData vertexCount].
  split; [| split; [exact Hv |]].
  - rewrite <- Hv. split; [intros ->; reflexivity | apply length_zero_iff_nil].
  - intros Hall. apply Hv in Hall. apply length_zero_iff_nil in Hall.
    now rewrite Hall.
Qed.

(** ** The bounding box against the vertices *)

Lemma bb_fold_encloses (vs : list Vertex) :
  forall bb : BoundingBox,
    Forall (fun v => vle (bbmin (fold_left bb_step vs bb)) (position v) /\
                     vle (position v) (bbmax (fold_left bb_step vs bb))) vs.
Proof.
  induction vs as [| v vs IH]; intros bb; cbn [fold_left]; constructor.
  - destruct (bb_fold_mono vs (bb_step bb v)) as [H1 H2]. split.
    + eapply vle_trans; [exact H1 | apply vmin_le_r].
    + eapply vle_trans; [apply vmax_ge_r | exact H2].
  - apply IH.
Qed.

Lemma fmin_either (x y : float) : fmin x y = x \/ fmin x y = y.
Proof. unfold fmin. destruct (flt y x); auto. Qed.

Lemma fmax_either (x y : float) : fmax x y = x \/ fmax x y = y.
Proof. unfold fmax. destruct (flt x y); auto. Qed.

(** The next three lemmas hold for each coordinate [pr] of a vector. *)

Lemma bb_fold_min_attained (pr : vec3 -> float)
    (pr_vmin : forall a b, pr (vmin a b) = fmin (pr a) (pr b))
    (vs : list Vertex) :
  forall bb : BoundingBox,
    pr (bbmin (fold_left bb_step vs bb)) = pr (bbmin bb) \/
    exists v, In v vs /\ pr (position v) = pr (bbmin (fold_left bb_step vs bb)).
Proof.
  induction vs as [| v vs IH]; intros bb; cbn [fold_left]; [now left |].
  destruct (IH (bb_step bb v)) as [E | (v' & Hin & E)].
  - cbn [bb_step bbmin] in E. rewrite pr_vmin in E.
    destruct (fmin_either (pr (bbmin bb)) (pr (position v))) as [F | F];
      rewrite F in E.
    + now left.
    + right. exists v. split; [now left | now symmetry].
  - right. exists v'. split; [now right | exact E].
Qed.

Lemma bb_fold_max_attained (pr : vec3 -> float)
    (pr_vmax : forall a b, pr (vmax a b) = fmax (pr a) (pr b))
    (vs : list Vertex) :
  forall bb : BoundingBox,
    pr (bbmax (fold_left bb_step vs bb)) = pr (bbmax bb) \/
    exists v, In v vs /\ pr (position v) = pr (bbmax (fold_left bb_step vs bb)).
Proof.
  induction vs as [| v vs IH]; intros bb; cbn [fold_left]; [now left |].
  destruct (IH (bb_step bb v)) as [E | (v' & Hin & E)].
  - cbn [bb_step bbmax] in E. rewrite pr_vmax in E.
    destruct (fmax_either (pr (bbmax bb)) (pr (position v))) as [F | F];
      rewrite F in E.
    + now left.
    + right. exists v. split; [now left | now symmetry].
  - right. exists v'. split; [now right | exact E].
Qed.

Lemma shape_extremes_attained (pr : vec3 -> float)
    (pr_vmin : forall a b, pr (vmin a b) = fmin (pr a) (pr b))
    (pr_vmax : forall a b, pr (vmax a b) = fmax (pr a) (pr b))
    (pr_vle : forall a b, vle a b -> (pr a <= pr b)%Q)
    (pr_splat : forall x, pr (vec3_splat x) = x)
    (bl : list vec3) :
  (exists v, In v (vertexData (mesh (make_shape (origin :: bl)))) /\
             pr (position v) = pr (bbmin (boundingBox (make_shape (origin :: bl))))) /\
  (exists v, In v (vertexData (mesh (make_shape (origin :: bl)))) /\
             pr (position v) = pr (bbmax (boundingBox (make_shape (origin :: bl))))).
Proof.
  set (shape := make_shape (origin :: bl)).
  destruct (bounding_box_contains_first bl) as [Hmin Hmax].
  apply pr_vle in Hmin. apply pr_vle in Hmax.
  change (ivec (-1) (-1) (-1)) with (vec3_splat (inject_Z (-1))) in Hmin.
  change (ivec 1 1 1) with (vec3_splat (inject_Z 1)) in Hmax.
  rewrite pr_splat in Hmin, Hmax. fold shape in Hmin, Hmax.
  split.
  - destruct (bb_fold_min_attained pr pr_vmin (build_vertices (origin :: bl)) bb_init)
      as [E | H]; [| exact H].
    exfalso. change (pr (bbmin (boundingBox shape)) = pr (vec3_splat FLT_MAX)) in E.
    rewrite pr_splat in E. rewrite E in Hmin.
    vm_compute in Hmin. apply Hmin. reflexivity.
  - destruct (bb_fold_max_attained pr pr_vmax (build_vertices (origin :: bl)) bb_init)
      as [E | H]; [| exact H].
    exfalso. change (pr (bbmax (boundingBox shape)) = pr (vec3_splat FLT_MIN)) in E.
    rewrite pr_splat in E. rewrite E in Hmax.
    vm_compute in Hmax. apply Hmax. reflexivity.
Qed.

(** X7: the bounding box of a generated shape encloses every vertex of its
    mesh, and when the mesh is not empty the box is tight: each of its six
    bounds is the coordinate of some vertex (the initial values FLT_MAX and
    FLT_MIN are gone). *)
Theorem bounding_box_encloses_and_is_tight (segments : list Z) (w : World) :
  exists shape w',
    initializeShape segments w = (Ok shape, w') /\
    Forall (fun v => vle (bbmin (boundingBox shape)) (position v) /\
                     vle (position v) (bbmax (boundingBox shape)))
           (vertexData (mesh shape)) /\
    (vertexData (mesh shape) <> [] ->
     (exists v, In v (vertexData (mesh shape)) /\
                vx (position v) = vx (bbmin (boundingBox shape))) /\
     (exists v, In v (vertexData (mesh shape)) /\
                vy (position v) = vy (bbmin (boundingBox shape))) /\
     (exists v, In v (vertexData (mesh shape)) /\
                vz (position v) = vz (bbmin (boundingBox shape))) /\
     (exists v, In v (vertexData (mesh shape)) /\
                vx (position v) = vx (bbmax (boundingBox shape))) /\
     (exists v, In v (vertexData (mesh shape)) /\
                vy (position v) = vy (bbmax (boundingBox shape))) /\
     (exists v, In v (vertexData (mesh shape)) /\
                vz (position v) = vz (bbmax (boundingBox shape)))).
Proof.
  destruct (initializeShape_spec segments w)
    as (centers & runs & w' & _ & Ei & _ & _ & Hh & _).
  exists (make_shape centers), w'. split; [exact Ei |].
  split; [apply bb_fold_encloses |].
  intros Hne. destruct centers as [| b bl]; [now elim Hne |].
  cbn in Hh. subst b.
  destruct (shape_extremes_attained vx) with (bl := bl) as [X1 X2];
    try reflexivity; [intros a b (H & _); exact H |].
  destruct (shape_extremes_attained vy) with (bl := bl) as [Y1 Y2];
    try reflexivity; [intros a b (_ & H & _); exact H |].
  destruct (shape_extremes_attained vz) with (bl := bl) as [Z1 Z2];
    try reflexivity; [intros a b (_ & _ & H); exact H |].
  split; [exact X1 |]. split; [exact Y1 |]. split; [exact Z1 |].
  split; [exact X2 |]. split; [exact Y2 |]. exact Z2.
Qed.

(** ** The chain of cubes *)

Lemma path_head (steps : list (nat * vec3)) :
  forall c : vec3, hd c (path c steps) = c.
Proof.
  induction steps as [| [n d] rest IH]; intros c; cbn [path]; [reflexivity |].
  destruct n as [| n]; cbn [run moved app hd]; [apply IH | reflexivity].
Qed.

Lemma path_linked (steps : list (nat * vec3)) :
  Forall (fun p => unit_step (snd p)) steps ->
  forall c : vec3, linked (path c steps).
Proof.
  induction 1 as [| [n d] rest Hd Hrest IH]; intros c; cbn [path]; [exact I |].
  cbn [snd] in Hd. revert c. induction n as [| n IHn]; intros c.
  - cbn [run moved app]. apply IH.
  - cbn [run moved app linked]. split; [| apply IHn].
    change (run n d (vadd c d) ++ path (moved n d (vadd c d)) rest)
      with (path (vadd c d) ((n, d) :: rest)).
    pose proof (path_head ((n, d) :: rest) (vadd c d)) as Hh.
    destruct (path (vadd c d) ((n, d) :: rest)) as [| b t]; [exact I |].
    cbn [hd] in Hh. exists d. split; [exact Hd | exact Hh].
Qed.

Lemma walk_from_path (segments : list Z) :
  forall (s : WalkState) (w : World),
    walk_inv s ->
    exists s' w' steps,
      walk_from s segments w = (Ok s', w') /\
      blocks s' = blocks s ++ path (center s) steps /\
      Forall (fun p => unit_step (snd p)) steps.
Proof.
  induction segments as [| L rest IH]; intros s w Hs.
  - exists s, w, []. cbn. rewrite app_nil_r. repeat split. constructor.
  - destruct (segment_spec s L w Hs) as (s1 & w1 & E1 & _ & I1 & _ & B1 & C1).
    destruct (IH s1 w1 I1) as (s2 & w2 & steps & E2 & B2 & Hsteps).
    exists s2, w2, ((Z.to_nat L, step_vector s) :: steps).
    cbn [walk_from]. unfold bind. rewrite E1, E2.
    split; [reflexivity |]. split.
    + rewrite B2, B1, C1. cbn [path]. now rewrite app_assoc.
    + constructor; [| exact Hsteps].
      cbn [snd]. destruct Hs. now apply step_vector_unit.
Qed.

Lemma linked_nth (l : list vec3) :
  linked l ->
  forall (i : nat) (a b : vec3),
    nth_error l i = Some a -> nth_error l (S i) = Some b ->
    exists d, unit_step d /\ b = vadd a d.
Proof.
  induction l as [| x t IH]; intros Hl i a b Ha Hb.
  - destruct i; discriminate.
  - destruct Hl as [Hx Ht]. destruct i as [| i].
    + cbn in Ha, Hb. injection Ha as <-.
      destruct t as [| y t']; [discriminate |].
      cbn in Hb. injection Hb as <-. exact Hx.
    + cbn in Ha. apply (IH Ht i a b Ha Hb).
Qed.

(** X8: for fewer than 2^23 cubes (the range in which the single-precision
    additions of the code are exact) the cube centers form one chain: every
    center in the block list, also the first of a segment after the last of
    the segment before it, is its predecessor moved by 2 or -2 along exactly
    one axis, so consecutive cubes share a face; the coordinates of the
    centers are binary32 values. *)
Theorem consecutive_cubes_share_a_face (segments : list Z) (w : World) :
  Z.of_nat (cubes segments) < 2 ^ 23 ->
  exists centers w',
    walk segments w = (Ok centers, w') /\
    List.length centers = cubes segments /\
    Forall vec_exact centers /\
    linked centers /\
    forall (i : nat) (a b : vec3),
      nth_error centers i = Some a -> nth_error centers (S i) = Some b ->
      exists d, unit_step d /\ b = vadd a d.
Proof.
  intros Hbound.
  destruct (walk_from_path segments walk_init w walk_init_inv)
    as (s & w' & steps & E & B & Hsteps).
  assert (Ew : walk segments w = (Ok (blocks s), w'))
    by (unfold walk, bind, ret; now rewrite E).
  destruct (initializeShape_spec segments w)
    as (centers & runs & w1 & Ew1 & _ & _ & _ & _ & Bc & R).
  rewrite Ew in Ew1. injection Ew1 as <- <-.
  assert (Hlen : List.length (blocks s) = cubes segments)
    by (rewrite Bc; now apply segment_runs_length).
  destruct (generated_coordinates_bounded segments w) as (centers' & w2 & Ew2 & Hc & _).
  rewrite Ew in Ew2. injection Ew2 as <- <-.
  exists (blocks s), w'.
  assert (Hl : linked (blocks s)).
  { rewrite B. cbn [blocks walk_init app]. now apply path_linked. }
  split; [exact Ew |]. split; [exact Hlen |].
  split.
  { eapply Forall_impl; [| exact Hc]. intros c. apply within_exact. lia. }
  split; [exact Hl | now apply linked_nth].
Qed.

Lemma consecutive_cubes_share_a_face_witness :
  exists centers w',
    walk [3; 3; 2; 3] alternating = (Ok centers, w') /\
    List.length centers = cubes [3; 3; 2; 3] /\
    Forall vec_exact centers /\
    linked centers /\
    forall (i : nat) (a b : vec3),
      nth_error centers i = Some a -> nth_error centers (S i) = Some b ->
      exists d, unit_step d /\ b = vadd a d.
Proof.
  apply (consecutive_cubes_share_a_face [3; 3; 2; 3] alternating).
  reflexivity.
Defined.

(** ** The faces of a cube *)

Lemma triangles_cube_app (c : vec3) (rest : list Vertex) :
  triangles (cube c ++ rest) = triangles (cube c) ++ triangles rest.
Proof. reflexivity. Qed.

Lemma triangles_flat (centers : list vec3) :
  triangles (flat_map cube centers) = flat_map (fun c => triangles (cube c)) centers.
Proof.
  induction centers as [| c rest IH]; [reflexivity |].
  cbn [flat_map]. now rewrite triangles_cube_app, IH.
Qed.

Lemma cube_outward (c : vec3) : Forall (outward c) (triangles (cube c)).
Proof.
  destruct c as [x y z].
  unfold cube, addFace. cbn [app triangles position].
  repeat (constructor;
          [unfold outward, dot, cross, vsub, vadd, ivec; cbn [vx vy vz];
           match goal with
           | |- (0 < ?e)%Q => assert (E : (e == 4)%Q) by (cbn [inject_Z]; ring);
                              rewrite E; reflexivity
           end |]).
  constructor.
Qed.

Lemma cube_corners (c : vec3) : Forall (fun v => corner c (position v)) (cube c).
Proof.
  unfold cube, addFace. cbn [app].
  repeat (constructor;
          [cbn [position]; eexists _, _, _;
           (split; [| split; [| split; [| reflexivity]]]); (now left) || (now right) |]).
  constructor.
Qed.

(** X9: for fewer than 2^23 cubes (the range in which the single-precision
    additions of the code are exact) a draw of the mesh as GL_TRIANGLES makes
    twelve triangles per cube, and every one of them is counter-clockwise
    seen from outside its cube (its normal points away from the cube's
    center), which is the front face kept by the culling that [render]
    enables; the coordinates of the vertices are binary32 values. *)
Theorem mesh_triangles_wind_outward (segments : list Z) (w : World) :
  Z.of_nat (cubes segments) < 2 ^ 23 ->
  exists centers shape w',
    walk segments w = (Ok centers, w') /\
    initializeShape segments w = (Ok shape, w') /\
    List.length centers = cubes segments /\
    Forall (fun v => vec_exact (position v)) (vertexData (mesh shape)) /\
    triangles (vertexData (mesh shape)) =
      flat_map (fun c => triangles (cube c)) centers /\
    List.length (triangles (vertexData (mesh shape))) = (12 * List.length centers)%nat /\
    Forall (fun c => Forall (outward c) (triangles (cube c))) centers.
Proof.
  intros Hbound.
  destruct (initializeShape_spec segments w)
    as (centers & runs & w' & Ew & Ei & _ & _ & _ & Bc & R).
  assert (Hlen : List.length centers = cubes segments)
    by (rewrite Bc; now apply segment_runs_length).
  destruct (generated_coordinates_bounded segments w) as (centers' & w2 & Ew2 & _ & Hv).
  rewrite Ew in Ew2. injection Ew2 as <- <-.
  exists centers, (make_shape centers), w'.
  split; [exact Ew |]. split; [exact Ei |]. split; [exact Hlen |].
  cbn [make_shape mesh make_mesh vertexData].
  split.
  { eapply Forall_impl; [| exact Hv]. intros v. apply within_exact. lia. }
  rewrite build_vertices_flat, triangles_flat.
  split; [reflexivity |]. split.
  - clear. induction centers as [| c rest IH]; [reflexivity |].
    cbn [flat_map]. rewrite length_app, IH.
    change (List.length (triangles (cube c))) with 12%nat. cbn [List.length]. lia.
  - apply Forall_forall. intros c _. apply cube_outward.
Qed.

Lemma mesh_triangles_wind_outward_witness :
  exists centers shape w',
    walk [3; 3; 2; 3] alternating = (Ok centers, w') /\
    initializeShape [3; 3; 2; 3] alternating = (Ok shape, w') /\
    List.length centers = cubes [3; 3; 2; 3] /\
    Forall (fun v => vec_exact (position v)) (vertexData (mesh shape)) /\
    triangles (vertexData (mesh shape)) =
      flat_map (fun c => triangles (cube c)) centers /\
    List.length (triangles (vertexData (mesh shape))) = (12 * List.length centers)%nat /\
    Forall (fun c => Forall (outward c) (triangles (cube c))) centers.
Proof.
  apply (mesh_triangles_wind_outward [3; 3; 2; 3] alternating).
  reflexivity.
Defined.

(** X10: for fewer than 2^23 cubes (the range in which the single-precision
    additions of the code are exact) every vertex of a generated mesh is a
    corner of the cube around one of the centers; the coordinates are
    integers of magnitude at most twice the number of cubes for a center and
    one more for a vertex, and binary32 values. *)
Theorem vertices_are_bounded_corners (segments : list Z) (w : World) :
  Z.of_nat (cubes segments) < 2 ^ 23 ->
  exists centers shape w',
    walk segments w = (Ok centers, w') /\
    initializeShape segments w = (Ok shape, w') /\
    List.length centers = cubes segments /\
    Forall (fun c => within (2 * Z.of_nat (List.length centers)) c /\ vec_exact c)
           centers /\
    Forall (fun v => within (2 * Z.of_nat (List.length centers) + 1) (position v) /\
                     vec_exact (position v) /\
                     exists c, In c centers /\ corner c (position v))
           (vertexData (mesh shape)).
Proof.
  intros Hbound.
  destruct (initializeShape_spec segments w)
    as (centers & runs & w' & Ew & Ei & _ & _ & _ & Bc & R).
  assert (Hlen : List.length centers = cubes segments)
    by (rewrite Bc; now apply segment_runs_length).
  destruct (generated_coordinates_bounded segments w)
    as (centers' & w'' & Ew' & Hc & Hv).
  rewrite Ew in Ew'. injection Ew' as <- <-.
  exists centers, (make_shape centers), w'.
  split; [exact Ew |]. split; [exact Ei |]. split; [exact Hlen |].
  split.
  { eapply Forall_impl; [| exact Hc]. intros c Hw.
    split; [exact Hw |]. eapply within_exact; [| exact Hw]. lia. }
  cbn [make_shape mesh make_mesh vertexData].
  rewrite Forall_forall in Hv. apply Forall_forall. intros v Hin.
  split; [now apply Hv |].
  split; [eapply within_exact; [| apply Hv; exact Hin]; lia |].
  rewrite build_vertices_flat in Hin. apply in_flat_map in Hin.
  destruct Hin as (c & Hc' & Hin). exists c. split; [exact Hc' |].
  pose proof (cube_corners c) as Hcor. rewrite Forall_forall in Hcor.
  now apply Hcor.
Qed.

Lemma vertices_are_bounded_corners_witness :
  exists centers shape w',
    walk [3; 3; 2; 3] alternating = (Ok centers, w') /\
    initializeShape [3; 3; 2; 3] alternating = (Ok shape, w') /\
    List.length centers = cubes [3; 3; 2; 3] /\
    Forall (fun c => within (2 * Z.of_nat (List.length centers)) c /\ vec_exact c)
           centers /\
    Forall (fun v => within (2 * Z.of_nat (List.length centers) + 1) (position v) /\
                     vec_exact (position v) /\
                     exists c, In c centers /\ corner c (position v))
           (vertexData (mesh shape)).
Proof.
  apply (vertices_are_bounded_corners [3; 3; 2; 3] alternating).
  reflexivity.
Defined.

(** ** The outcome of render *)

Lemma render_null (d : Demo) (w : World) :
  m_shapeProgram d = None ->
  render d w = (Crash NullPointer,
                emit w [glClearColor 1 1 1 1;
                        glClear [GL_COLOR_BUFFER_BIT; GL_DEPTH_BUFFER_BIT];
                        glEnable GL_DEPTH_TEST; glEnable GL_CULL_FACE;
                        glCullFace GL_BACK]).
Proof.
  intros Hp. unfold render. rewrite Hp.
  unfold bind. rewrite !call_emit, !emit_emit. unfold crash. reflexivity.
Qed.

Lemma render_shapes_calls (d : Demo) (vw vh : Z) (shapes : list Shape) :
  forall i : Z,
  exists tr,
    (forall w, render_shapes d vw vh i shapes w = (Ok tt, emit w tr)) /\
    List.length tr = (3 * List.length shapes)%nat /\
    forall (k : nat) (shape : Shape),
      nth_error shapes k = Some shape ->
      exists x y h m,
        nth_error tr (3 * k) = Some (glViewport x y vw h) /\
        nth_error tr (3 * k + 1) = Some (ProgramSetUniform "mvp" m) /\
        nth_error tr (3 * k + 2) = Some (MeshRender (mesh shape) GL_TRIANGLES).
Proof.
  induction shapes as [| shape rest IH]; intros i.
  - exists []. split; [| split; [reflexivity |]].
    + intros w. cbn. now rewrite emit_nil.
    + intros k shape Hk. destruct k; discriminate.
  - destruct (IH (i + 1)) as (tr & Hrun & Hlen & Hnth).
    eexists (_ :: _ :: _ :: tr). split; [| split].
    + intros w. cbn [render_shapes]. unfold bind.
      rewrite !call_emit. rewrite Hrun, !emit_emit. cbn [app]. reflexivity.
    + cbn [List.length]. rewrite Hlen. lia.
    + intros k s Hk. destruct k as [| k].
      * cbn in Hk. injection Hk as <-. do 4 eexists.
        split; [| split]; reflexivity.
      * cbn [nth_error] in Hk.
        destruct (Hnth k s Hk) as (x & y & h & m & H0 & H1 & H2).
        exists x, y, h, m.
        replace (3 * S k)%nat with (S (S (S (3 * k)))) by lia.
        cbn [Nat.add nth_error]. split; [exact H0 |]. split; assumption.
Qed.

(** X11: with a shape count that fits [size_t], [render] fails on a null
    program pointer when no program is set, divides by zero when a program is
    set and there is no shape, and succeeds otherwise; in every case it has
    cleared the buffers, it leaves the generator and stderr alone, and a
    failed call has issued no viewport, uniform or draw. *)
Theorem render_outcome (d : Demo) (w : World) :
  Z.of_nat (List.length (m_shapes d)) + 2 < 2 ^ 64 ->
  fst (render d w) =
    match m_shapeProgram d, m_shapes d with
    | None, _ => Crash NullPointer
    | Some _, [] => Crash DivisionByZero
    | Some _, _ :: _ => Ok tt
    end /\
  generator (snd (render d w)) = generator w /\
  stderr (snd (render d w)) = stderr w /\
  In (glClear [GL_COLOR_BUFFER_BIT; GL_DEPTH_BUFFER_BIT]) (emitted (render d) w) /\
  (fst (render d w) <> Ok tt ->
   viewports (emitted (render d) w) = [] /\
   uniforms (emitted (render d) w) = [] /\
   mesh_renders (emitted (render d) w) = []).
Proof.
  intros Hn. destruct d as [W H [p |] shapes t]; cbn [m_shapeProgram m_shapes] in *.
  - destruct shapes as [| shape rest].
    + pose proof (render_empty W H p t w) as E.
      rewrite (emitted_emit _ _ _ _ E), E. cbn [fst snd emit generator stderr].
      repeat split; try reflexivity. right; left; reflexivity.
    + destruct (render_ok W H p (shape :: rest) t ltac:(discriminate) Hn)
        as (tr & Hrun & _).
      rewrite (emitted_emit _ _ _ _ (Hrun w)), Hrun. cbn [fst snd emit generator stderr].
      split; [reflexivity |]. split; [reflexivity |]. split; [reflexivity |].
      split; [right; left; reflexivity | congruence].
  - pose proof (render_null (mkDemo W H None shapes t) w eq_refl) as E.
    rewrite (emitted_emit _ _ _ _ E), E. cbn [fst snd emit generator stderr].
    repeat split; try reflexivity. right; left; reflexivity.
Qed.

Lemma render_outcome_witness :
  fst (render six_cubes all_zeros) =
    match m_shapeProgram six_cubes, m_shapes six_cubes with
    | None, _ => Crash NullPointer
    | Some _, [] => Crash DivisionByZero
    | Some _, _ :: _ => Ok tt
    end /\
  generator (snd (render six_cubes all_zeros)) = generator all_zeros /\
  stderr (snd (render six_cubes all_zeros)) = stderr all_zeros /\
  In (glClear [GL_COLOR_BUFFER_BIT; GL_DEPTH_BUFFER_BIT])
     (emitted (render six_cubes) all_zeros) /\
  (fst (render six_cubes all_zeros) <> Ok tt ->
   viewports (emitted (render six_cubes) all_zeros) = [] /\
   uniforms (emitted (render six_cubes) all_zeros) = [] /\
   mesh_renders (emitted (render six_cubes) all_zeros) = []).
Proof.
  apply (render_outcome six_cubes all_zeros). reflexivity.
Defined.

Lemma render_success_calls (W H : Z) (p : ShaderProgram) (shapes : list Shape) (t : float) :
  shapes <> [] -> Z.of_nat (List.length shapes) + 2 < 2 ^ 64 ->
  exists tr,
    (forall w, emitted (render (mkDemo W H (Some p) shapes t)) w = prelude ++ tr) /\
    List.length tr = (3 * List.length shapes)%nat /\
    forall (k : nat) (shape : Shape),
      nth_error shapes k = Some shape ->
      exists x y h m,
        nth_error tr (3 * k) = Some (glViewport x y (Z.quot W Columns) h) /\
        nth_error tr (3 * k + 1) = Some (ProgramSetUniform "mvp" m) /\
        nth_error tr (3 * k + 2) = Some (MeshRender (mesh shape) GL_TRIANGLES).
Proof.
  intros Hne Hn.
  set (n := Z.of_nat (List.length shapes)) in *.
  assert (Hpos : 0 < n).
  { destruct shapes; [congruence | unfold n; cbn [List.length]; lia]. }
  pose proof (rows_ceiling n) as Hr.
  destruct (render_shapes_calls (mkDemo W H (Some p) shapes t) (Z.quot W Columns)
              (size_t_of H / spec_rows n) shapes 0) as (tr & Hrun & Hlen & Hnth).
  exists tr. split; [| split; [exact Hlen | exact Hnth]].
  intros w. apply (emitted_emit _ _ (Ok tt)).
  unfold render. cbn [m_shapeProgram m_shapes m_canvasWidth m_canvasHeight].
  fold n. rewrite rows_eq by lia.
  destruct (spec_rows n =? 0) eqn:E; [apply Z.eqb_eq in E; lia |].
  unfold bind. rewrite !call_emit, !emit_emit, Hrun, emit_emit. reflexivity.
Qed.

(** X12: a successful [render] issues the six state calls (clear color,
    clear, two enables, cull face, program bind) once, and then for each
    shape, in the order of the collection, a viewport, the "mvp" uniform and
    one GL_TRIANGLES draw of that shape's mesh: 6 + 3 n calls, one draw per
    shape. *)
Theorem render_draws_each_shape_once
    (W H : Z) (p : ShaderProgram) (shapes : list Shape) (t : float) (w : World) :
  shapes <> [] -> Z.of_nat (List.length shapes) + 2 < 2 ^ 64 ->
  firstn 6 (emitted (render (mkDemo W H (Some p) shapes t)) w) = prelude /\
  List.length (emitted (render (mkDemo W H (Some p) shapes t)) w)
    = (6 + 3 * List.length shapes)%nat /\
  mesh_renders (emitted (render (mkDemo W H (Some p) shapes t)) w)
    = map (fun shape => (mesh shape, GL_TRIANGLES)) shapes /\
  forall (k : nat) (shape : Shape),
    nth_error shapes k = Some shape ->
    exists x y h m,
      nth_error (emitted (render (mkDemo W H (Some p) shapes t)) w) (6 + 3 * k)
        = Some (glViewport x y (Z.quot W Columns) h) /\
      nth_error (emitted (render (mkDemo W H (Some p) shapes t)) w) (6 + 3 * k + 1)
        = Some (ProgramSetUniform "mvp" m) /\
      nth_error (emitted (render (mkDemo W H (Some p) shapes t)) w) (6 + 3 * k + 2)
        = Some (MeshRender (mesh shape) GL_TRIANGLES).
Proof.
  intros Hne Hn.
  destruct (render_success_calls W H p shapes t Hne Hn) as (tr & Hem & Hlen & Hnth).
  destruct (render_ok W H p shapes t Hne Hn) as (tr' & Hrun & _ & _ & Hm).
  split; [rewrite Hem; reflexivity |].
  split; [rewrite Hem, length_app, Hlen; reflexivity |].
  split; [rewrite (emitted_emit _ _ _ _ (Hrun w)); exact Hm |].
  intros k shape Hk. destruct (Hnth k shape Hk) as (x & y & h & m & H0 & H1 & H2).
  exists x, y, h, m. rewrite Hem.
  change (6 + 3 * k + 1)%nat with (6 + (3 * k + 1))%nat.
  change (6 + 3 * k + 2)%nat with (6 + (3 * k + 2))%nat.
  change 6%nat with (List.length prelude).
  rewrite !nth_error_app2 by lia.
  replace (List.length prelude + 3 * k - List.length prelude)%nat with (3 * k)%nat by lia.
  replace (List.length prelude + (3 * k + 1) - List.length prelude)%nat
    with (3 * k + 1)%nat by lia.
  replace (List.length prelude + (3 * k + 2) - List.length prelude)%nat
    with (3 * k + 2)%nat by lia.
  split; [exact H0 |]. split; assumption.
Qed.

Lemma render_draws_each_shape_once_witness :
  firstn 6 (emitted (render (mkDemo 640 480 (Some good_program)
                               (repeat (make_shape [origin]) 6) 0)) all_zeros) = prelude /\
  List.length (emitted (render (mkDemo 640 480 (Some good_program)
                                  (repeat (make_shape [origin]) 6) 0)) all_zeros)
    = (6 + 3 * List.length (repeat (make_shape [origin]) 6))%nat /\
  mesh_renders (emitted (render (mkDemo 640 480 (Some good_program)
                                   (repeat (make_shape [origin]) 6) 0)) all_zeros)
    = map (fun shape => (mesh shape, GL_TRIANGLES)) (repeat (make_shape [origin]) 6) /\
  forall (k : nat) (shape : Shape),
    nth_error (repeat (make_shape [origin]) 6) k = Some shape ->
    exists x y h m,
      nth_error (emitted (render (mkDemo 640 480 (Some good_program)
                                    (repeat (make_shape [origin]) 6) 0)) all_zeros)
                (6 + 3 * k)
        = Some (glViewport x y (Z.quot 640 Columns) h) /\
      nth_error (emitted (render (mkDemo 640 480 (Some good_program)
                                    (repeat (make_shape [origin]) 6) 0)) all_zeros)
                (6 + 3 * k + 1)
        = Some (ProgramSetUniform "mvp" m) /\
      nth_error (emitted (render (mkDemo 640 480 (Some good_program)
                                    (repeat (make_shape [origin]) 6) 0)) all_zeros)
                (6 + 3 * k + 2)
        = Some (MeshRender (mesh shape) GL_TRIANGLES).
Proof.
  apply (render_draws_each_shape_once 640 480 good_program
           (repeat (make_shape [origin]) 6) 0 all_zeros).
  - discriminate.
  - reflexivity.
Defined.

(** ** The tiles *)

Lemma nth_error_indices (n i : nat) (z : Z) :
  nth_error (indices 0 n) i = Some z -> z = Z.of_nat i /\ (i < n)%nat.
Proof.
  unfold indices. intros H.
  assert (Hi : (i < n)%nat).
  { assert (Hs : nth_error (map (fun k => 0 + Z.of_nat k) (seq 0 n)) i <> None)
      by (rewrite H; discriminate).
    apply nth_error_Some in Hs. now rewrite length_map, length_seq in Hs. }
  split; [| exact Hi].
  rewrite nth_error_map in H.
  destruct (nth_error (seq 0 n) i) as [k |] eqn:E; [| discriminate].
  apply (nth_error_nth _ _ 0%nat) in E. rewrite seq_nth in E by exact Hi.
  cbn in H. injection H as <-. subst k. lia.
Qed.

Lemma render_viewports
    (W H : Z) (p : ShaderProgram) (shapes : list Shape) (t : float) (w : World) :
  0 <= W < 2 ^ 31 -> 0 <= H < 2 ^ 31 ->
  shapes <> [] -> Z.of_nat (List.length shapes) + 2 < 2 ^ 64 ->
  viewports (emitted (render (mkDemo W H (Some p) shapes t)) w) =
    map (spec_viewport W H (Z.of_nat (List.length shapes)))
        (indices 0 (List.length shapes)).
Proof.
  intros HW HH Hne Hn.
  destruct (render_ok W H p shapes t Hne Hn) as (tr & Hrun & Hv & _).
  rewrite (emitted_emit _ _ _ _ (Hrun w)), Hv.
  apply map_ext_in. intros i Hi.
  pose proof (indices_bound 0 (List.length shapes)) as Hb.
  rewrite Forall_forall in Hb. specialize (Hb i Hi).
  apply (tile_viewport W H (Z.of_nat (List.length shapes)) i); lia.
Qed.

Lemma tile_inside (W H n i px py : Z) :
  0 <= W -> 0 <= H -> 0 <= i < n ->
  in_tile (spec_viewport W H n i) px py -> 0 <= px < W /\ 0 <= py < H.
Proof.
  intros HW HH Hi. unfold in_tile, spec_viewport, spec_cell. cbn [fst snd].
  intros [Hx Hy].
  pose proof (rows_ceiling n) as Hr. set (rows := spec_rows n) in *.
  assert (Hrows : 0 < rows) by lia.
  pose proof (Z.mod_pos_bound i 3 ltac:(lia)) as Bm.
  assert (Bd : 0 <= i / 3 < rows).
  { split; [apply Z.div_pos; lia | apply Z.div_lt_upper_bound; lia]. }
  pose proof (Z.mul_div_le W 3 ltac:(lia)) as Bw.
  pose proof (Z.mul_div_le H rows ltac:(lia)) as Bh.
  assert (0 <= W / 3) by (apply Z.div_pos; lia).
  assert (0 <= H / rows) by (apply Z.div_pos; lia).
  split; nia.
Qed.

Lemma tiles_disjoint (W H n i j px py : Z) :
  0 <= W -> 0 <= H -> 0 <= i -> 0 <= j -> i <> j ->
  in_tile (spec_viewport W H n i) px py ->
  in_tile (spec_viewport W H n j) px py -> False.
Proof.
  intros HW HH Hi Hj Hne. unfold in_tile, spec_viewport, spec_cell. cbn [fst snd].
  intros [Hx Hy] [Kx Ky].
  pose proof (Z.div_mod i 3 ltac:(lia)) as Ei.
  pose proof (Z.div_mod j 3 ltac:(lia)) as Ej.
  set (vw := W / 3) in *. set (vh := H / spec_rows n) in *.
  set (ri := i mod 3) in *. set (rj := j mod 3) in *.
  set (qi := i / 3) in *. set (qj := j / 3) in *.
  assert (Hcase : ri < rj \/ rj < ri \/ qi < qj \/ qj < qi) by lia.
  destruct Hcase as [C | [C | [C | C]]].
  - assert ((ri + 1) * vw <= rj * vw) by (apply Z.mul_le_mono_nonneg_r; lia). lia.
  - assert ((rj + 1) * vw <= ri * vw) by (apply Z.mul_le_mono_nonneg_r; lia). lia.
  - assert ((qi + 1) * vh <= qj * vh) by (apply Z.mul_le_mono_nonneg_r; lia). lia.
  - assert ((qj + 1) * vh <= qi * vh) by (apply Z.mul_le_mono_nonneg_r; lia). lia.
Qed.

(** X13: the viewports of one frame lie inside the canvas and no pixel is in
    two of them, for canvas dimensions that are non-negative [int]s and at
    least one shape. *)
Theorem viewports_inside_canvas_and_disjoint
    (W H : Z) (p : ShaderProgram) (shapes : list Shape) (t : float) (w : World) :
  0 <= W < 2 ^ 31 -> 0 <= H < 2 ^ 31 ->
  shapes <> [] -> Z.of_nat (List.length shapes) + 2 < 2 ^ 64 ->
  List.length (viewports (emitted (render (mkDemo W H (Some p) shapes t)) w))
    = List.length shapes /\
  forall (i j : nat) (vi vj : Z * Z * Z * Z),
    nth_error (viewports (emitted (render (mkDemo W H (Some p) shapes t)) w)) i = Some vi ->
    nth_error (viewports (emitted (render (mkDemo W H (Some p) shapes t)) w)) j = Some vj ->
    (forall px py, in_tile vi px py -> 0 <= px < W /\ 0 <= py < H) /\
    (i <> j -> forall px py, ~ (in_tile vi px py /\ in_tile vj px py)).
Proof.
  intros HW HH Hne Hn.
  rewrite (render_viewports W H p shapes t w HW HH Hne Hn).
  split.
  { unfold indices. now rewrite !length_map, length_seq. }
  intros i j vi vj Hi Hj.
  rewrite nth_error_map in Hi, Hj.
  destruct (nth_error (indices 0 (List.length shapes)) i) as [a |] eqn:Ea; [| discriminate].
  destruct (nth_error (indices 0 (List.length shapes)) j) as [b |] eqn:Eb; [| discriminate].
  cbn in Hi, Hj. injection Hi as <-. injection Hj as <-.
  apply nth_error_indices in Ea, Eb. destruct Ea as [-> Hia], Eb as [-> Hjb].
  split.
  - intros px py. apply tile_inside; lia.
  - intros Hij px py [Ti Tj].
    apply (tiles_disjoint W H (Z.of_nat (List.length shapes))
             (Z.of_nat i) (Z.of_nat j) px py); try lia; assumption.
Qed.

Lemma viewports_inside_canvas_and_disjoint_witness :
  List.length (viewports (emitted (render (mkDemo 640 480 (Some good_program)
                                             (repeat (make_shape [origin]) 6) 0)) all_zeros))
    = List.length (repeat (make_shape [origin]) 6) /\
  forall (i j : nat) (vi vj : Z * Z * Z * Z),
    nth_error (viewports (emitted (render (mkDemo 640 480 (Some good_program)
                                             (repeat (make_shape [origin]) 6) 0)) all_zeros)) i
      = Some vi ->
    nth_error (viewports (emitted (render (mkDemo 640 480 (Some good_program)
                                             (repeat (make_shape [origin]) 6) 0)) all_zeros)) j
      = Some vj ->
    (forall px py, in_tile vi px py -> 0 <= px < 640 /\ 0 <= py < 480) /\
    (i <> j -> forall px py, ~ (in_tile vi px py /\ in_tile vj px py)).
Proof.
  apply (viewports_inside_canvas_and_disjoint 640 480 good_program
           (repeat (make_shape [origin]) 6) 0 all_zeros).
  - split; [discriminate | reflexivity].
  - split; [discriminate | reflexivity].
  - discriminate.
  - reflexivity.
Defined.

(** ** The two ways out of initialize *)

(** X16: when an [addShader] call fails, [initialize] returns false after one
    line on stderr that starts by naming the failing stage and its path; the
    program pointer is set, the shapes and the time are as before, and no
    draw of the generator is made. *)
Theorem initialize_fails_without_shapes
    (fresh : ShaderProgram) (d : Demo) (w : World) :
  addShader fresh GL_VERTEX_SHADER "shaders/shape.vert" = false \/
  addShader fresh GL_FRAGMENT_SHADER "shaders/shape.frag" = false ->
  exists rest,
    fst (initialize fresh d w) =
      Ok (false,
          mkDemo (m_canvasWidth d) (m_canvasHeight d) (Some fresh)
                 (m_shapes d) (m_curTime d)) /\
    stderr (snd (initialize fresh d w)) =
      stderr w ++
      [((if addShader fresh GL_VERTEX_SHADER "shaders/shape.vert"
         then "Failed to add fragment shader shaders/shape.frag: "
         else "Failed to add vertex shader shaders/shape.vert: ") ++ rest)%string] /\
    generator (snd (initialize fresh d w)) = generator w.
Proof.
  intros Hfail. unfold initialize, initializeProgram.
  destruct (addShader fresh GL_VERTEX_SHADER "shaders/shape.vert") eqn:Ev; cbn [negb].
  - destruct Hfail as [Hv | Hf]; [discriminate |]. rewrite Hf. cbn [negb].
    exists (log fresh ++ newline)%string. repeat split.
  - exists (log fresh ++ newline)%string. repeat split.
Qed.

Lemma initialize_fails_without_shapes_witness :
  exists rest,
    fst (initialize bad_vertex_program (Demo_new 640 480) alternating) =
      Ok (false,
          mkDemo (m_canvasWidth (Demo_new 640 480)) (m_canvasHeight (Demo_new 640 480))
                 (Some bad_vertex_program) (m_shapes (Demo_new 640 480))
                 (m_curTime (Demo_new 640 480))) /\
    stderr (snd (initialize bad_vertex_program (Demo_new 640 480) alternating)) =
      stderr alternating ++
      [((if addShader bad_vertex_program GL_VERTEX_SHADER "shaders/shape.vert"
         then "Failed to add fragment shader shaders/shape.frag: "
         else "Failed to add vertex shader shaders/shape.vert: ") ++ rest)%string] /\
    generator (snd (initialize bad_vertex_program (Demo_new 640 480) alternating))
      = generator alternating.
Proof.
  apply (initialize_fails_without_shapes bad_vertex_program (Demo_new 640 480) alternating).
  left. reflexivity.
Defined.

Lemma initializeShape_full (segments : list Z) (w : World) :
  exists centers w',
    initializeShape segments w = (Ok (make_shape centers), w') /\
    quiet w w' /\
    (forall n, generator w' n = generator w (2 * List.length segments + n)%nat) /\
    List.length centers = cubes segments /\ hd origin centers = origin.
Proof.
  destruct (initializeShape_spec segments w)
    as (centers & runs & w' & Ew & Ei & Hq & _ & Hh & B & R).
  destruct (walk_from_draws segments walk_init w walk_init_inv)
    as (s & w'' & E & _ & G).
  assert (Ew' : w'' = w').
  { unfold walk, bind, ret in Ew. rewrite E in Ew. now injection Ew. }
  subst w''. exists centers, w'.
  split; [exact Ei |]. split; [exact Hq |]. split; [exact G |].
  split; [| exact Hh]. rewrite B. now apply segment_runs_length.
Qed.

Lemma push_shapes_full (n : nat) (segments : list Z) :
  forall (d : Demo) (w : World),
  exists added w',
    push_shapes n segments d w = (Ok (set_shapes d (m_shapes d ++ added)), w') /\
    quiet w w' /\ List.length added = n /\
    Forall (fun shape => exists centers,
                shape = make_shape centers /\
                List.length centers = cubes segments /\ hd origin centers = origin)
           added /\
    forall k, generator w' k = generator w (n * (2 * List.length segments) + k)%nat.
Proof.
  induction n as [| n IH]; intros d w.
  - exists [], w. cbn. rewrite app_nil_r. destruct d.
    repeat split; try reflexivity. constructor.
  - destruct (initializeShape_full segments w)
      as (centers & w1 & Ei & [Q1 Q1'] & G1 & Hl & Hh).
    destruct (IH (set_shapes d (m_shapes d ++ [make_shape centers])) w1)
      as (added & w2 & E2 & [Q2 Q2'] & Hlen & Hall & G2).
    exists (make_shape centers :: added), w2.
    cbn [push_shapes]. unfold bind. rewrite Ei, E2.
    split; [unfold set_shapes; cbn; now rewrite <- app_assoc |].
    split; [split; congruence |].
    split; [cbn; now rewrite Hlen |].
    split; [constructor; [now exists centers | exact Hall] |].
    intros k. rewrite G2, G1. f_equal. lia.
Qed.

(** X17: when both [addShader] calls succeed, [initialize] returns true and
    appends six shapes to the collection, keeping the ones already there;
    each new shape has 396 vertices (11 cubes) and a bounding box that
    contains the cube from (-1,-1,-1) to (1,1,1); the generator loses exactly
    48 draws, and stderr gets one line if [link] failed and none otherwise. *)
Theorem initialize_appends_six_shapes
    (fresh : ShaderProgram) (d : Demo) (w : World) :
  addShader fresh GL_VERTEX_SHADER "shaders/shape.vert" = true ->
  addShader fresh GL_FRAGMENT_SHADER "shaders/shape.frag" = true ->
  exists added lines w',
    initialize fresh d w =
      (Ok (true,
           mkDemo (m_canvasWidth d) (m_canvasHeight d) (Some fresh)
                  (m_shapes d ++ added) (m_curTime d)), w') /\
    List.length added = 6%nat /\
    Forall (fun shape =>
              vertexCount (mesh shape) = 396%nat /\
              List.length (vertexData (mesh shape)) = 396%nat /\
              vle (bbmin (boundingBox shape)) (ivec (-1) (-1) (-1)) /\
              vle (ivec 1 1 1) (bbmax (boundingBox shape)))
           added /\
    (forall k, generator w' k = generator w (48 + k)%nat) /\
    stderr w' = stderr w ++ lines /\
    List.length lines = (if link fresh then 0 else 1)%nat.
Proof.
  intros Hv Hf.
  set (lines := if link fresh then []
                else [("Failed to link shader: " ++ log fresh ++ newline)%string]).
  set (w1 := mkWorld (generator w) (stderr w ++ lines) (gl w)).
  assert (Ep : initializeProgram fresh "shaders/shape.vert" "shaders/shape.frag" w
               = (Ok true, w1)).
  { unfold initializeProgram. rewrite Hv, Hf. cbn [negb]. unfold w1, lines.
    destruct (link fresh); cbn [negb]; [| reflexivity].
    unfold bind, ret. destruct w. cbn. now rewrite app_nil_r. }
  destruct (push_shapes_full 6 [3; 3; 2; 3] (set_shapeProgram d fresh) w1)
    as (added & w2 & E & [Q Q'] & Hlen & Hall & G).
  exists added, lines, w2.
  split; [unfold initialize, bind; rewrite Ep; cbn [negb]; rewrite E; reflexivity |].
  split; [exact Hlen |].
  split; [| split; [exact G | split; [exact Q |]]].
  - eapply Forall_impl; [| exact Hall].
    intros shape (centers & -> & Hl & Hh).
    change (cubes [3; 3; 2; 3]) with 11%nat in Hl.
    assert (Hn : List.length (build_vertices centers) = 396%nat)
      by (rewrite build_vertices_length, Hl; reflexivity).
    split; [exact Hn |]. split; [exact Hn |].
    destruct centers as [| b bl]; [discriminate |].
    cbn in Hh. subst b. apply bounding_box_contains_first.
  - unfold lines. destruct (link fresh); reflexivity.
Qed.

Lemma initialize_appends_six_shapes_witness :
  exists added lines w',
    initialize good_program (Demo_new 640 480) alternating =
      (Ok (true,
           mkDemo (m_canvasWidth (Demo_new 640 480)) (m_canvasHeight (Demo_new 640 480))
                  (Some good_program)
                  (m_shapes (Demo_new 640 480) ++ added) (m_curTime (Demo_new 640 480))), w') /\
    List.length added = 6%nat /\
    Forall (fun shape =>
              vertexCount (mesh shape) = 396%nat /\
              List.length (vertexData (mesh shape)) = 396%nat /\
              vle (bbmin (boundingBox shape)) (ivec (-1) (-1) (-1)) /\
              vle (ivec 1 1 1) (bbmax (boundingBox shape)))
           added /\
    (forall k, generator w' k = generator alternating (48 + k)%nat) /\
    stderr w' = stderr alternating ++ lines /\
    List.length lines = (if link good_program then 0 else 1)%nat.
Proof.
  apply (initialize_appends_six_shapes good_program (Demo_new 640 480) alternating).
  - reflexivity.
  - reflexivity.
Defined.

(** ** The elapsed time *)

Lemma set_curTime_id (d : Demo) : set_curTime d (m_curTime d) = d.
Proof. now destruct d. Qed.

Lemma renderAndStep_unfold (d : Demo) (dt : float) (w : World) :
  renderAndStep d dt w =
    (match fst (render d w) with
     | Ok _ => Ok (set_curTime d (float_add (m_curTime d) dt))
     | Crash e => Crash e
     end, snd (render d w)).
Proof.
  unfold renderAndStep, bind, ret. destruct (render d w) as [[u | e] w']; reflexivity.
Qed.



Lemma render_success_uniforms (d : Demo) (w : World) :
  fst (render d w) = Ok tt ->
  (forall t' w', fst (render (set_curTime d t') w') = Ok tt) /\
  exists projection,
    forall t' w',
      uniforms (emitted (render (set_curTime d t')) w') =
        map (fun shape =>
               ("mvp"%string,
                MMul (MMul projection view_matrix) (model_matrix t' shape)))
            (m_shapes d).
Proof.
  intros Hok.
  assert (Hcase : exists p, m_shapeProgram d = Some p /\
            (size_t_of (size_t_of (Z.of_nat (List.length (m_shapes d))
                                   + size_t_of Columns) - 1)
             / size_t_of Columns =? 0) = false).
  { unfold render in Hok. destruct (m_shapeProgram d) as [p |].
    - exists p. split; [reflexivity |].
      destruct (_ =? 0) eqn:E; [| reflexivity].
      unfold bind in Hok. rewrite !call_emit in Hok. discriminate.
    - unfold bind in Hok. rewrite !call_emit in Hok. discriminate. }
  destruct Hcase as (p & Hp & Hrows).
  assert (Hrun : forall t',
            exists tr,
              (forall w', render (set_curTime d t') w' = (Ok tt, emit w' (prelude ++ tr))) /\
              uniforms tr =
                map (fun shape =>
                       ("mvp"%string,
                        MMul (MMul (MPerspective (FRadians 45)
                                      (FDiv (Z.quot (m_canvasWidth d) Columns)
                                         (size_t_of (m_canvasHeight d)
                                          / (size_t_of (size_t_of
                                               (Z.of_nat (List.length (m_shapes d))
                                                + size_t_of Columns) - 1)
                                             / size_t_of Columns)))
                                      (FLit (1 # 10)) (FLit 100))
                                   view_matrix)
                             (model_matrix t' shape)))
                    (m_shapes d)).
  { intros t'.
    destruct (render_shapes_pure (set_curTime d t') (Z.quot (m_canvasWidth d) Columns)
                (size_t_of (m_canvasHeight d)
                 / (size_t_of (size_t_of (Z.of_nat (List.length (m_shapes d))
                                          + size_t_of Columns) - 1)
                    / size_t_of Columns))
                (m_shapes d) 0) as (tr & Hr & _ & Hu & _).
    exists tr. split; [| exact Hu].
    intros w'. unfold render.
    cbn [set_curTime m_shapeProgram m_shapes m_canvasWidth m_canvasHeight].
    rewrite Hp, Hrows.
    unfold bind. rewrite !call_emit, !emit_emit.
    cbn [set_curTime] in Hr. rewrite Hr, emit_emit. reflexivity. }
  split.
  - intros t' w'. destruct (Hrun t') as (tr & Hr & _). now rewrite Hr.
  - eexists. intros t' w'. destruct (Hrun t') as (tr & Hr & Hu).
    rewrite (emitted_emit _ _ _ _ (Hr w')).
    unfold uniforms in *. rewrite flat_map_app. exact Hu.
Qed.






(** ** Sequences of frames *)

Lemma frames_spec (dts : list float) :
  forall (d : Demo) (w : World) (d' : Demo) (w' : World),
    frames d dts w = (Ok d', w') ->
    d' = set_curTime d (fold_left float_add dts (m_curTime d)) /\
    generator w' = generator w /\ stderr w' = stderr w.
Proof.
  induction dts as [| dt rest IH]; intros d w d' w' E.
  - cbn in E. injection E as <- <-. cbn [fold_left].
    now rewrite set_curTime_id.
  - cbn [frames] in E. unfold bind in E. rewrite renderAndStep_unfold in E.
    destruct (render_pure d) as (r & tr & _ & Hrun & _).
    rewrite Hrun in E. cbn [fst snd] in E.
    destruct r as [[] | e]; [| discriminate].
    apply IH in E. destruct E as (-> & G & S).
    cbn [fold_left]. split; [reflexivity |].
    split; [rewrite G | rewrite S]; reflexivity.
Qed.

Lemma fold_float_add_ge (dts : list float) :
  forall t : float,
    exact32 t = true ->
    exact32 (fold_left float_add dts t) = true /\
    (Forall (fun dt => 0 <= dt)%Q dts -> (t <= fold_left float_add dts t)%Q).
Proof.
  induction dts as [| dt rest IH]; intros t Ht; cbn [fold_left].
  - split; [exact Ht | intros _; apply Qle_refl].
  - destruct (IH (float_add t dt) (round32_exact _)) as [He Hle].
    split; [exact He |].
    intros Hpos. inversion Hpos as [| ? ? Hdt Hrest]; subst.
    eapply Qle_trans; [apply (float_add_ge t dt Ht Hdt) | now apply Hle].
Qed.

(** X14: a sequence of [renderAndStep] calls that all succeed, with no sum
    leaving the finite float range, changes the [Demo] in its time only,
    which ends at the steps added one by one in single precision; a time that
    is a float stays one, and never decreases when no step is negative; the
    generator and stderr are untouched. *)
Theorem frames_accumulate_time
    (d : Demo) (dts : list float) (w : World) (d' : Demo) :
  fst (frames d dts w) = Ok d' ->
  no_overflow (m_curTime d) dts ->
  m_curTime d' = fold_left float_add dts (m_curTime d) /\
  m_shapes d' = m_shapes d /\
  m_canvasWidth d' = m_canvasWidth d /\ m_canvasHeight d' = m_canvasHeight d /\
  m_shapeProgram d' = m_shapeProgram d /\
  (exact32 (m_curTime d) = true ->
   exact32 (m_curTime d') = true /\
   (Forall (fun dt => 0 <= dt)%Q dts -> (m_curTime d <= m_curTime d')%Q)) /\
  generator (snd (frames d dts w)) = generator w /\
  stderr (snd (frames d dts w)) = stderr w.
Proof.
  intros E _. destruct (frames d dts w) as [r w'] eqn:F. cbn [fst snd] in *. subst r.
  apply frames_spec in F. destruct F as (-> & G & S).
  cbn [set_curTime m_curTime m_shapes m_canvasWidth m_canvasHeight m_shapeProgram].
  repeat (split; [reflexivity |]).
  split; [apply fold_float_add_ge |].
  split; assumption.
Qed.

Lemma frames_accumulate_time_witness :
  m_curTime (set_curTime six_cubes (float_add (float_add 0 (1 # 64)) (1 # 64)))
    = fold_left float_add [1 # 64; 1 # 64]%Q (m_curTime six_cubes) /\
  m_shapes (set_curTime six_cubes (float_add (float_add 0 (1 # 64)) (1 # 64)))
    = m_shapes six_cubes /\
  m_canvasWidth (set_curTime six_cubes (float_add (float_add 0 (1 # 64)) (1 # 64)))
    = m_canvasWidth six_cubes /\
  m_canvasHeight (set_curTime six_cubes (float_add (float_add 0 (1 # 64)) (1 # 64)))
    = m_canvasHeight six_cubes /\
  m_shapeProgram (set_curTime six_cubes (float_add (float_add 0 (1 # 64)) (1 # 64)))
    = m_shapeProgram six_cubes /\
  (exact32 (m_curTime six_cubes) = true ->
   exact32 (m_curTime (set_curTime six_cubes (float_add (float_add 0 (1 # 64)) (1 # 64))))
     = true /\
   (Forall (fun dt => 0 <= dt)%Q [1 # 64; 1 # 64]%Q ->
    (m_curTime six_cubes
     <= m_curTime (set_curTime six_cubes (float_add (float_add 0 (1 # 64)) (1 # 64))))%Q)) /\
  generator (snd (frames six_cubes [1 # 64; 1 # 64]%Q all_zeros)) = generator all_zeros /\
  stderr (snd (frames six_cubes [1 # 64; 1 # 64]%Q all_zeros)) = stderr all_zeros.
Proof.
  apply (frames_accumulate_time six_cubes [1 # 64; 1 # 64]%Q all_zeros
           (set_curTime six_cubes (float_add (float_add 0 (1 # 64)) (1 # 64)))).
  - vm_compute. reflexivity.
  - split; [vm_compute; discriminate |].
    split; [vm_compute; discriminate | exact I].
Defined.

Lemma angles_of_models (projection : mat4) (t : float) (shapes : list Shape)
    (cs : list GLCall) :
  uniforms cs =
    map (fun shape =>
           ("mvp"%string, MMul (MMul projection view_matrix) (model_matrix t shape)))
        shapes ->
  angles cs = map (fun _ => (- (3 # 2) * t)%Q) shapes.
Proof.
  intros E. unfold angles. rewrite E. clear E.
  induction shapes as [| shape rest IH]; [reflexivity |].
  cbn [map flat_map]. rewrite IH. reflexivity.
Qed.

(** X15: after a successful [renderAndStep] from a time that is a float, with
    a step that is not negative and a sum inside the finite float range, the
    next frame succeeds too; each frame has one rotation angle per shape,
    -1.5 times its time, and no angle of the next frame is larger than in the
    frame just rendered (it is the same when the step is lost in the
    rounding). *)
Theorem step_never_turns_back
    (d : Demo) (dt : float) (w : World) (d' : Demo) (w' : World) :
  renderAndStep d dt w = (Ok d', w') ->
  exact32 (m_curTime d) = true -> (0 <= dt)%Q ->
  (Qabs (float_add (m_curTime d) dt) <= FLT_MAX)%Q ->
  fst (render d' w') = Ok tt /\
  angles (emitted (render d) w) = map (fun _ => (- (3 # 2) * m_curTime d)%Q) (m_shapes d) /\
  angles (emitted (render d') w')
    = map (fun _ => (- (3 # 2) * float_add (m_curTime d) dt)%Q) (m_shapes d) /\
  Forall2 Qle (angles (emitted (render d') w')) (angles (emitted (render d) w)).
Proof.
  intros E Ht Hdt _. rewrite renderAndStep_unfold in E.
  destruct (fst (render d w)) as [[] | e] eqn:Hok; [| discriminate].
  injection E as <- <-.
  destruct (render_success_uniforms d w Hok) as (Hnext & projection & Hu).
  assert (A1 : angles (emitted (render d) w)
               = map (fun _ => (- (3 # 2) * m_curTime d)%Q) (m_shapes d)).
  { apply (angles_of_models projection).
    rewrite <- (set_curTime_id d) at 1. apply Hu. }
  assert (A2 : angles (emitted (render (set_curTime d (float_add (m_curTime d) dt)))
                               (snd (render d w)))
               = map (fun _ => (- (3 # 2) * float_add (m_curTime d) dt)%Q) (m_shapes d)).
  { apply (angles_of_models projection). apply Hu. }
  split; [apply Hnext |]. split; [exact A1 |]. split; [exact A2 |].
  rewrite A1, A2.
  pose proof (float_add_ge (m_curTime d) dt Ht Hdt) as Hge.
  clear - Hge.
  induction (m_shapes d) as [| shape rest IH]; cbn [map]; constructor.
  - lra.
  - exact IH.
Qed.

Lemma step_never_turns_back_witness :
  fst (render (set_curTime six_cubes (float_add 0 (1 # 64)))
              (snd (render six_cubes all_zeros))) = Ok tt /\
  angles (emitted (render six_cubes) all_zeros)
    = map (fun _ => (- (3 # 2) * m_curTime six_cubes)%Q) (m_shapes six_cubes) /\
  angles (emitted (render (set_curTime six_cubes (float_add 0 (1 # 64))))
                  (snd (render six_cubes all_zeros)))
    = map (fun _ => (- (3 # 2) * float_add (m_curTime six_cubes) (1 # 64))%Q)
          (m_shapes six_cubes) /\
  Forall2 Qle
    (angles (emitted (render (set_curTime six_cubes (float_add 0 (1 # 64))))
                     (snd (render six_cubes all_zeros))))
    (angles (emitted (render six_cubes) all_zeros)).
Proof.
  apply (step_never_turns_back six_cubes (1 # 64) all_zeros
           (set_curTime six_cubes (float_add 0 (1 # 64)))
           (snd (render six_cubes all_zeros))).
  - rewrite renderAndStep_unfold.
    assert (E : fst (render six_cubes all_zeros) = Ok tt) by (vm_compute; reflexivity).
    now rewrite E.
  - vm_compute. reflexivity.
  - discriminate.
  - vm_compute. discriminate.
Defined.
